(** * outbox-abstraction: the event contract, the status enum and the
      event-manager registry, embedded from the Go sources

    Conventions of the embedding.
    - A Go [string] is a [String.string] (a sequence of 8-bit characters),
      a Go [[]byte] is a [list byte]; the conversions [[]byte(s)] and
      [string(b)] are [list_byte_of_string] and [string_of_list_byte].
    - A Go [error] result is an [option error]: [None] is [nil].
    - A method with a pointer receiver takes the pointed-to value and
      returns the value the receiver holds afterwards.
    - A Go interface value is [None] for [nil] and [Some v] otherwise. *)

From Stdlib Require Import ZArith NArith List Bool Lia.
From Stdlib Require Import Strings.String Strings.Ascii Strings.Byte.
From stdpp Require Import gmap strings list fin_maps pretty.

Local Open Scope string_scope.

(** ** Errors *)

(** The error values the package can return: [errors.New] strings from the
    manager, and the two kinds of error [encoding/json] reports when it
    decodes into a Go string. A value of this type is the kind of an
    error, not the error in full: [SyntaxError] stands for every
    [*json.SyntaxError], whose message and [Offset] are not modelled, and
    [UnmarshalTypeError] keeps the [Value] field only, not [Offset]. Two
    calls that return equal errors here return errors of the same kind in
    Go, which may differ in message and offset. *)
Inductive error : Type :=
  | errors_New (text : string)
  | SyntaxError
  | UnmarshalTypeError (Value : string).

(** A call returns, or it panics. *)
Inductive outcome (A : Type) : Type :=
  | Return (a : A)
  | Panics.
Arguments Return {A} a.
Arguments Panics {A}.

(** ** Events: event types, events and the factory *)

(** [type OutboxEventType interface { GetName() string; GetID() int }] *)
Class OutboxEventType (T : Type) := {
  GetName : T → string;
  GetID : T → Z
}.

(** [mockEventType] of event_test.go, the implementation the tests use. *)
Record mockEventType := { name : string; id : Z }.

#[global] Instance mockEventType_eq_dec : EqDecision mockEventType.
Proof. solve_decision. Defined.

#[global] Instance mockEventType_countable : Countable mockEventType.
Proof.
  refine (inj_countable' (λ m, (name m, id m)) (λ p, {| name := p.1; id := p.2 |}) _).
  by intros [].
Defined.

#[global] Instance mockEventType_OutboxEventType : OutboxEventType mockEventType :=
  {| GetName := name; GetID := id |}.

(** [type OutboxEventStatus string] and its three constants. *)
Definition OutboxEventStatus := string.

Definition OutboxEventStatusPending : OutboxEventStatus := "pending".
Definition OutboxEventStatusClosed : OutboxEventStatus := "closed".
Definition OutboxEventStatusFailed : OutboxEventStatus := "failed".

(** [time.Time], as the instant it denotes (nanoseconds since the epoch). *)
Definition Time := Z.

(** [type OutboxEvent struct]; [Payload interface{}] is a value of an
    arbitrary type [P]. *)
Record OutboxEvent (P : Type) := {
  EventID : string;
  EventType : string;
  EventStatus : string;
  AggregateType : string;
  AggregateID : string;
  Payload : P;
  CreatedAt : Time
}.
Arguments EventID {P} _.
Arguments EventType {P} _.
Arguments EventStatus {P} _.
Arguments AggregateType {P} _.
Arguments AggregateID {P} _.
Arguments Payload {P} _.
Arguments CreatedAt {P} _.

(** The two library calls of [CreateNewEvent] read the outside world:
    [uuid.New().String()] (github.com/google/uuid) and [time.Now()]. The
    world hands out their results in call order: [uuid_source i] is what the
    [i]-th call of [uuid.New().String()] returns, [time_source i] what the
    [i]-th call of [time.Now()] returns. *)
Record World := {
  uuid_source : nat → string;
  time_source : nat → Time;
  uuid_calls : nat;
  time_calls : nat
}.

Definition time_Now (w : World) : Time * World :=
  (time_source w (time_calls w),
   {| uuid_source := uuid_source w; time_source := time_source w;
      uuid_calls := uuid_calls w; time_calls := S (time_calls w) |}).

Definition uuid_New_String (w : World) : string * World :=
  (uuid_source w (uuid_calls w),
   {| uuid_source := uuid_source w; time_source := time_source w;
      uuid_calls := S (uuid_calls w); time_calls := time_calls w |}).

(** [func CreateNewEvent(eventType OutboxEventType, AggregateType,
    AggregateID string, payload interface{}) OutboxEvent] *)
Definition CreateNewEvent {T} `{OutboxEventType T} {P : Type}
    (eventType : T) (AggregateType AggregateID : string) (payload : P)
    (w : World) : OutboxEvent P * World :=
  let '(tm, w1) := time_Now w in
  let '(uid, w2) := uuid_New_String w1 in
  ({| EventID := uid;
      EventType := GetName eventType;
      EventStatus := OutboxEventStatusPending;
      AggregateType := AggregateType;
      AggregateID := AggregateID;
      Payload := payload;
      CreatedAt := tm |}, w2).

(** A run of [CreateNewEvent] calls, one per request, in order. *)
Fixpoint create_events {T} `{OutboxEventType T} {P : Type}
    (reqs : list (T * string * string * P)) (w : World) : list (OutboxEvent P) :=
  match reqs with
  | [] => []
  | (eventType, aggT, aggID, payload) :: reqs' =>
      let '(e, w') := CreateNewEvent eventType aggT aggID payload w in
      e :: create_events reqs' w'
  end.

(** ** The event manager: the registry of channels *)

Inductive Context := context_Background.

(** [type OutboxEventChannel interface] of event_channel.go: an interface
    value over the channel implementations [C] is [None] (nil) or
    [Some c]. *)
Abbreviation OutboxEventChannel C := (option C) (only parsing).

Section Manager.
(** [K] collects the event-type values used as map keys: Go compares the
    keys of [map[OutboxEventType]OutboxEventChannel] with [==] on the
    interface values, which is the equality of [K]. [C] collects the
    channel implementations. *)
Context {K : Type} `{Countable K} {C : Type}.

Record outboxEventManagerImpl := {
  ctx : Context;
  eventChannels : gmap K (OutboxEventChannel C)
}.

Definition NewOutboxEventManager : outboxEventManagerImpl :=
  {| ctx := context_Background; eventChannels := ∅ |}.

Definition RegisterEventChannel (eventType : K) (channel : OutboxEventChannel C)
    (m : outboxEventManagerImpl) : outboxEventManagerImpl * option error :=
  match eventChannels m !! eventType with
  | Some _ =>
      (m, Some (errors_New "event channel already registered for this event type"))
  | None =>
      ({| ctx := ctx m;
          eventChannels := <[eventType := channel]> (eventChannels m) |}, None)
  end.

Definition GetChannel (eventType : K) (m : outboxEventManagerImpl)
    : outboxEventManagerImpl * (OutboxEventChannel C * option error) :=
  match eventChannels m !! eventType with
  | None => (m, (None, Some (errors_New "outbox event channel not found")))
  | Some channel => (m, (channel, None))
  end.

(** The operations of the [OutboxEventManager] interface, and a manager's
    state after a sequence of them. *)
Inductive manager_op :=
  | OpRegister (eventType : K) (channel : OutboxEventChannel C)
  | OpGetChannel (eventType : K).

Definition apply_op (m : outboxEventManagerImpl) (o : manager_op)
    : outboxEventManagerImpl :=
  match o with
  | OpRegister k c => fst (RegisterEventChannel k c m)
  | OpGetChannel k => fst (GetChannel k m)
  end.

Definition run_ops (ops : list manager_op) (m : outboxEventManagerImpl)
    : outboxEventManagerImpl :=
  fold_left apply_op ops m.

End Manager.

Arguments outboxEventManagerImpl K {_ _} C.
Arguments manager_op K C : clear implicits.

(** ** unicode/utf8 and unicode/utf16, as far as encoding/json uses them *)

Local Open Scope Z_scope.

(** [rune(b)] for a byte, and [byte(r)] for a rune (the low eight bits). *)
Definition Z_of_byte (b : byte) : Z := Z.of_N (Byte.to_N b).

Definition byte_of_Z (z : Z) : byte :=
  match Byte.of_N (Z.to_N (Z.land z 0xFF)) with
  | Some b => b
  | None => x00
  end.

Module utf8.

Definition RuneError : Z := 0xFFFD.
Definition RuneSelf : Z := 0x80.
Definition MaxRune : Z := 0x10FFFF.

(** The table [first]: what the first byte of a sequence announces.
    [first_as] is an ASCII byte, [first_xx] an invalid first byte,
    [first_seq sz lo hi] a sequence of [sz] bytes whose second byte lies in
    [lo..hi] (the entry of [acceptRanges]). *)
Inductive first_info :=
  | first_as
  | first_xx
  | first_seq (sz : nat) (lo hi : Z).

Definition first (p0 : Z) : first_info :=
  if p0 <? 0x80 then first_as
  else if p0 <? 0xC2 then first_xx
  else if p0 <? 0xE0 then first_seq 2 0x80 0xBF
  else if p0 =? 0xE0 then first_seq 3 0xA0 0xBF
  else if p0 <? 0xED then first_seq 3 0x80 0xBF
  else if p0 =? 0xED then first_seq 3 0x80 0x9F
  else if p0 <? 0xF0 then first_seq 3 0x80 0xBF
  else if p0 =? 0xF0 then first_seq 4 0x90 0xBF
  else if p0 <? 0xF4 then first_seq 4 0x80 0xBF
  else if p0 =? 0xF4 then first_seq 4 0x80 0x8F
  else first_xx.

(** [func DecodeRune(p []byte) (rune, int)] *)
Definition DecodeRune (p : list byte) : Z * nat :=
  match p with
  | [] => (RuneError, 0%nat)
  | p0 :: p1 =>
      match first (Z_of_byte p0) with
      | first_as => (Z_of_byte p0, 1%nat)
      | first_xx => (RuneError, 1%nat)
      | first_seq sz lo hi =>
          match p1 with
          | [] => (RuneError, 1%nat)
          | b1 :: p2 =>
              if (length p <? sz)%nat then (RuneError, 1%nat)
              else if (Z_of_byte b1 <? lo) || (hi <? Z_of_byte b1) then (RuneError, 1%nat)
              else if (sz <=? 2)%nat then
                (Z.lor (Z.shiftl (Z.land (Z_of_byte p0) 0x1F) 6)
                       (Z.land (Z_of_byte b1) 0x3F), 2%nat)
              else
                match p2 with
                | [] => (RuneError, 1%nat)
                | b2 :: p3 =>
                    if (Z_of_byte b2 <? 0x80) || (0xBF <? Z_of_byte b2) then (RuneError, 1%nat)
                    else if (sz <=? 3)%nat then
                      (Z.lor (Z.lor (Z.shiftl (Z.land (Z_of_byte p0) 0x0F) 12)
                                    (Z.shiftl (Z.land (Z_of_byte b1) 0x3F) 6))
                             (Z.land (Z_of_byte b2) 0x3F), 3%nat)
                    else
                      match p3 with
                      | [] => (RuneError, 1%nat)
                      | b3 :: _ =>
                          if (Z_of_byte b3 <? 0x80) || (0xBF <? Z_of_byte b3) then (RuneError, 1%nat)
                          else
                            (Z.lor (Z.lor (Z.lor (Z.shiftl (Z.land (Z_of_byte p0) 0x07) 18)
                                                 (Z.shiftl (Z.land (Z_of_byte b1) 0x3F) 12))
                                          (Z.shiftl (Z.land (Z_of_byte b2) 0x3F) 6))
                                   (Z.land (Z_of_byte b3) 0x3F), 4%nat)
                      end
                end
          end
      end
  end.

(** [func EncodeRune(p []byte, r rune) int], returning the bytes written. *)
Definition encode3 (r : Z) : list byte :=
  [byte_of_Z (Z.lor 0xE0 (Z.shiftr r 12));
   byte_of_Z (Z.lor 0x80 (Z.land (Z.shiftr r 6) 0x3F));
   byte_of_Z (Z.lor 0x80 (Z.land r 0x3F))].

Definition EncodeRune (r : Z) : list byte :=
  if (0 <=? r) && (r <=? 0x7F) then [byte_of_Z r]
  else if (0 <=? r) && (r <=? 0x7FF) then
    [byte_of_Z (Z.lor 0xC0 (Z.shiftr r 6));
     byte_of_Z (Z.lor 0x80 (Z.land r 0x3F))]
  else if (r <? 0) || (MaxRune <? r) || ((0xD800 <=? r) && (r <=? 0xDFFF)) then
    encode3 RuneError
  else if r <=? 0xFFFF then encode3 r
  else
    [byte_of_Z (Z.lor 0xF0 (Z.shiftr r 18));
     byte_of_Z (Z.lor 0x80 (Z.land (Z.shiftr r 12) 0x3F));
     byte_of_Z (Z.lor 0x80 (Z.land (Z.shiftr r 6) 0x3F));
     byte_of_Z (Z.lor 0x80 (Z.land r 0x3F))].

End utf8.

Module utf16.

Definition IsSurrogate (r : Z) : bool := (0xD800 <=? r) && (r <? 0xE000).

(** [func DecodeRune(r1, r2 rune) rune] *)
Definition DecodeRune (r1 r2 : Z) : Z :=
  if (0xD800 <=? r1) && (r1 <? 0xDC00) && (0xDC00 <=? r2) && (r2 <? 0xE000)
  then Z.lor (Z.shiftl (r1 - 0xD800) 10) (r2 - 0xDC00) + 0x10000
  else 0xFFFD.

End utf16.

(** ** encoding/json: the scanner (scanner.go) *)

Module json.

Local Open Scope byte_scope.

Definition isSpace (c : byte) : bool :=
  match c with
  | " " | x09 | x0d | x0a => true
  | _ => false
  end.

Definition isDigit (c : byte) : bool :=
  (0x30 <=? Z_of_byte c)%Z && (Z_of_byte c <=? 0x39)%Z.

Definition isDigit19 (c : byte) : bool :=
  (0x31 <=? Z_of_byte c)%Z && (Z_of_byte c <=? 0x39)%Z.

Definition isHex (c : byte) : bool :=
  isDigit c
  || ((0x61 <=? Z_of_byte c)%Z && (Z_of_byte c <=? 0x66)%Z)
  || ((0x41 <=? Z_of_byte c)%Z && (Z_of_byte c <=? 0x46)%Z).

(** The values a scanner step returns. *)
Inductive opcode :=
  | scanContinue | scanBeginLiteral | scanBeginObject | scanObjectKey
  | scanObjectValue | scanEndObject | scanBeginArray | scanArrayValue
  | scanEndArray | scanSkipSpace | scanEnd | scanError.

(** The entries of the parse stack. *)
Inductive parse_state := parseObjectKey | parseObjectValue | parseArrayValue.

(** The state functions a scanner's [step] field can hold. *)
Inductive state_fn :=
  | stateBeginValueOrEmpty | stateBeginValue | stateBeginStringOrEmpty
  | stateBeginString | stateEndValue | stateEndTop
  | stateInString | stateInStringEsc | stateInStringEscU
  | stateInStringEscU1 | stateInStringEscU12 | stateInStringEscU123
  | stateNeg | state1 | state0 | stateDot | stateDot0
  | stateE | stateESign | stateE0
  | stateT | stateTr | stateTru
  | stateF | stateFa | stateFal | stateFals
  | stateN | stateNu | stateNul
  | stateError.

(** [type scanner struct]; the top of [parseState] is the head of the list;
    [err] records that a syntax error is stored. *)
Record scanner := {
  step : state_fn;
  endTop : bool;
  parseState : list parse_state;
  err : option error
}.

Definition maxNestingDepth : Z := 10000.

Definition reset : scanner :=
  {| step := stateBeginValue; endTop := false; parseState := []; err := None |}.

Definition set_step (s : scanner) (f : state_fn) : scanner :=
  {| step := f; endTop := endTop s; parseState := parseState s; err := err s |}.

Definition set_top (s : scanner) (p : parse_state) : scanner :=
  {| step := step s; endTop := endTop s;
     parseState := match parseState s with [] => [] | _ :: ps => p :: ps end;
     err := err s |}.

(** [func (s *scanner) error(c byte, context string) int] *)
Definition scan_error (s : scanner) : scanner * opcode :=
  ({| step := stateError; endTop := endTop s; parseState := parseState s;
      err := Some SyntaxError |}, scanError).

(** [func (s *scanner) pushParseState(c byte, newParseState int,
    successState int) int] *)
Definition pushParseState (s : scanner) (newParseState : parse_state)
    (successState : opcode) : scanner * opcode :=
  let s' := {| step := step s; endTop := endTop s;
               parseState := newParseState :: parseState s; err := err s |} in
  if (Z.of_nat (length (parseState s')) <=? maxNestingDepth)%Z
  then (s', successState)
  else scan_error s'.

(** [func (s *scanner) popParseState()] *)
Definition popParseState (s : scanner) : scanner :=
  match tail (parseState s) with
  | [] => {| step := stateEndTop; endTop := true; parseState := []; err := err s |}
  | ps => {| step := stateEndValue; endTop := endTop s; parseState := ps; err := err s |}
  end.

Definition do_stateEndTop (s : scanner) (c : byte) : scanner * opcode :=
  if isSpace c then (s, scanEnd)
  else (fst (scan_error s), scanEnd).

Definition do_stateEndValue (s : scanner) (c : byte) : scanner * opcode :=
  match parseState s with
  | [] =>
      do_stateEndTop
        {| step := stateEndTop; endTop := true; parseState := []; err := err s |} c
  | ps :: _ =>
      if isSpace c then (set_step s stateEndValue, scanSkipSpace)
      else
        match ps with
        | parseObjectKey =>
            match c with
            | ":" => (set_step (set_top s parseObjectValue) stateBeginValue, scanObjectKey)
            | _ => scan_error s
            end
        | parseObjectValue =>
            match c with
            | "," => (set_step (set_top s parseObjectKey) stateBeginString, scanObjectValue)
            | "}" => (popParseState s, scanEndObject)
            | _ => scan_error s
            end
        | parseArrayValue =>
            match c with
            | "," => (set_step s stateBeginValue, scanArrayValue)
            | "]" => (popParseState s, scanEndArray)
            | _ => scan_error s
            end
        end
  end.

Definition do_stateBeginValue (s : scanner) (c : byte) : scanner * opcode :=
  if isSpace c then (s, scanSkipSpace)
  else
    match c with
    | "{" => pushParseState (set_step s stateBeginStringOrEmpty) parseObjectKey scanBeginObject
    | "[" => pushParseState (set_step s stateBeginValueOrEmpty) parseArrayValue scanBeginArray
    | x22 => (set_step s stateInString, scanBeginLiteral)
    | "-" => (set_step s stateNeg, scanBeginLiteral)
    | "0" => (set_step s state0, scanBeginLiteral)
    | "t" => (set_step s stateT, scanBeginLiteral)
    | "f" => (set_step s stateF, scanBeginLiteral)
    | "n" => (set_step s stateN, scanBeginLiteral)
    | _ =>
        if isDigit19 c then (set_step s state1, scanBeginLiteral)
        else scan_error s
    end.

Definition do_stateBeginValueOrEmpty (s : scanner) (c : byte) : scanner * opcode :=
  if isSpace c then (s, scanSkipSpace)
  else
    match c with
    | "]" => do_stateEndValue s c
    | _ => do_stateBeginValue s c
    end.

Definition do_stateBeginString (s : scanner) (c : byte) : scanner * opcode :=
  if isSpace c then (s, scanSkipSpace)
  else
    match c with
    | x22 => (set_step s stateInString, scanBeginLiteral)
    | _ => scan_error s
    end.

Definition do_stateBeginStringOrEmpty (s : scanner) (c : byte) : scanner * opcode :=
  if isSpace c then (s, scanSkipSpace)
  else
    match c with
    | "}" => do_stateEndValue (set_top s parseObjectValue) c
    | _ => do_stateBeginString s c
    end.

Definition do_stateInString (s : scanner) (c : byte) : scanner * opcode :=
  match c with
  | x22 => (set_step s stateEndValue, scanContinue)
  | "\" => (set_step s stateInStringEsc, scanContinue)
  | _ =>
      if (Z_of_byte c <? 0x20)%Z then scan_error s
      else (s, scanContinue)
  end.

Definition do_stateInStringEsc (s : scanner) (c : byte) : scanner * opcode :=
  match c with
  | "b" | "f" | "n" | "r" | "t" | "\" | "/" | x22 =>
      (set_step s stateInString, scanContinue)
  | "u" => (set_step s stateInStringEscU, scanContinue)
  | _ => scan_error s
  end.

(** The four states of a [\u] escape: a hexadecimal digit moves on. *)
Definition do_hex (next : state_fn) (s : scanner) (c : byte) : scanner * opcode :=
  if isHex c then (set_step s next, scanContinue) else scan_error s.

Definition do_state0 (s : scanner) (c : byte) : scanner * opcode :=
  match c with
  | "." => (set_step s stateDot, scanContinue)
  | "e" | "E" => (set_step s stateE, scanContinue)
  | _ => do_stateEndValue s c
  end.

Definition do_stateNeg (s : scanner) (c : byte) : scanner * opcode :=
  match c with
  | "0" => (set_step s state0, scanContinue)
  | _ =>
      if isDigit19 c then (set_step s state1, scanContinue)
      else scan_error s
  end.

Definition do_state1 (s : scanner) (c : byte) : scanner * opcode :=
  if isDigit c then (set_step s state1, scanContinue)
  else do_state0 s c.

Definition do_stateDot (s : scanner) (c : byte) : scanner * opcode :=
  if isDigit c then (set_step s stateDot0, scanContinue)
  else scan_error s.

Definition do_stateDot0 (s : scanner) (c : byte) : scanner * opcode :=
  if isDigit c then (s, scanContinue)
  else
    match c with
    | "e" | "E" => (set_step s stateE, scanContinue)
    | _ => do_stateEndValue s c
    end.

Definition do_stateESign (s : scanner) (c : byte) : scanner * opcode :=
  if isDigit c then (set_step s stateE0, scanContinue)
  else scan_error s.

Definition do_stateE (s : scanner) (c : byte) : scanner * opcode :=
  match c with
  | "+" | "-" => (set_step s stateESign, scanContinue)
  | _ => do_stateESign s c
  end.

Definition do_stateE0 (s : scanner) (c : byte) : scanner * opcode :=
  if isDigit c then (s, scanContinue)
  else do_stateEndValue s c.

(** The states inside [true], [false] and [null]: the expected letter
    moves on. *)
Definition do_letter (want : byte) (next : state_fn) (s : scanner) (c : byte)
    : scanner * opcode :=
  if Byte.eqb c want then (set_step s next, scanContinue) else scan_error s.

(** [s.step(s, c)]: one byte through the scanner. *)
Definition scan_step (s : scanner) (c : byte) : scanner * opcode :=
  match step s with
  | stateBeginValueOrEmpty => do_stateBeginValueOrEmpty s c
  | stateBeginValue => do_stateBeginValue s c
  | stateBeginStringOrEmpty => do_stateBeginStringOrEmpty s c
  | stateBeginString => do_stateBeginString s c
  | stateEndValue => do_stateEndValue s c
  | stateEndTop => do_stateEndTop s c
  | stateInString => do_stateInString s c
  | stateInStringEsc => do_stateInStringEsc s c
  | stateInStringEscU => do_hex stateInStringEscU1 s c
  | stateInStringEscU1 => do_hex stateInStringEscU12 s c
  | stateInStringEscU12 => do_hex stateInStringEscU123 s c
  | stateInStringEscU123 => do_hex stateInString s c
  | stateNeg => do_stateNeg s c
  | state1 => do_state1 s c
  | state0 => do_state0 s c
  | stateDot => do_stateDot s c
  | stateDot0 => do_stateDot0 s c
  | stateE => do_stateE s c
  | stateESign => do_stateESign s c
  | stateE0 => do_stateE0 s c
  | stateT => do_letter "r" stateTr s c
  | stateTr => do_letter "u" stateTru s c
  | stateTru => do_letter "e" stateEndValue s c
  | stateF => do_letter "a" stateFa s c
  | stateFa => do_letter "l" stateFal s c
  | stateFal => do_letter "s" stateFals s c
  | stateFals => do_letter "e" stateEndValue s c
  | stateN => do_letter "u" stateNu s c
  | stateNu => do_letter "l" stateNul s c
  | stateNul => do_letter "l" stateEndValue s c
  | stateError => (s, scanError)
  end.

(** [func (s *scanner) eof() int] *)
Definition eof (s : scanner) : scanner * opcode :=
  match err s with
  | Some _ => (s, scanError)
  | None =>
      if endTop s then (s, scanEnd)
      else
        let s' := fst (scan_step s " ") in
        if endTop s' then (s', scanEnd)
        else
          match err s' with
          | Some _ => (s', scanError)
          | None =>
              ({| step := step s'; endTop := endTop s'; parseState := parseState s';
                  err := Some SyntaxError |}, scanError)
          end
  end.

(** [func checkValid(data []byte, scan *scanner) error], from a scanner in
    state [s]; [checkValid data] starts from [reset]. *)
Fixpoint checkValid_from (s : scanner) (data : list byte) : option error :=
  match data with
  | [] =>
      let '(s', op) := eof s in
      match op with
      | scanError => err s'
      | _ => None
      end
  | c :: data' =>
      let '(s', op) := scan_step s c in
      match op with
      | scanError => err s'
      | _ => checkValid_from s' data'
      end
  end.

Definition checkValid (data : list byte) : option error :=
  checkValid_from reset data.


(** *** The decoder (decode.go), for a destination of type [*string] *)

(** [d.scanWhile(scanSkipSpace)]: the opcode of the first byte that is not
    skipped, and the input from that byte on. *)
Fixpoint scanWhile_skipSpace (s : scanner) (data : list byte)
    : scanner * opcode * list byte :=
  match data with
  | [] => (eof s, [])
  | c :: data' =>
      let '(s', op) := scan_step s c in
      match op with
      | scanSkipSpace => scanWhile_skipSpace s' data'
      | _ => (s', op, data)
      end
  end.

(** The loop of [rescanLiteral] over a string literal, after its opening
    quote: the bytes up to and including the closing quote. *)
Fixpoint rescan_string (escaped : bool) (data : list byte) : list byte :=
  match data with
  | [] => []
  | c :: data' =>
      if escaped then c :: rescan_string false data'
      else
        match c with
        | "\" => c :: rescan_string true data'
        | x22 => [c]
        | _ => c :: rescan_string false data'
        end
  end.

Definition isNumberByte (c : byte) : bool :=
  isDigit c ||
  match c with
  | "." | "e" | "E" | "+" | "-" => true
  | _ => false
  end.

Fixpoint rescan_number (data : list byte) : list byte :=
  match data with
  | [] => []
  | c :: data' => if isNumberByte c then c :: rescan_number data' else []
  end.

(** [func (d *decodeState) rescanLiteral()]: the literal that starts at the
    head of [data]. *)
Definition rescanLiteral (data : list byte) : list byte :=
  match data with
  | [] => []
  | c :: data' =>
      match c with
      | x22 => c :: rescan_string false data'
      | "t" => c :: firstn 3 data'
      | "f" => c :: firstn 4 data'
      | "n" => c :: firstn 3 data'
      | _ => if isDigit c || Byte.eqb c "-" then c :: rescan_number data' else [c]
      end
  end.

(** [func getu4(s []byte) rune] *)
Definition hexval (c : byte) : option Z :=
  let z := Z_of_byte c in
  if (0x30 <=? z)%Z && (z <=? 0x39)%Z then Some (z - 0x30)%Z
  else if (0x61 <=? z)%Z && (z <=? 0x66)%Z then Some (z - 0x61 + 10)%Z
  else if (0x41 <=? z)%Z && (z <=? 0x46)%Z then Some (z - 0x41 + 10)%Z
  else None.

Definition getu4 (s : list byte) : Z :=
  match s with
  | s0 :: s1 :: h1 :: h2 :: h3 :: h4 :: _ =>
      if negb (Byte.eqb s0 "\") || negb (Byte.eqb s1 "u") then (-1)%Z
      else
        match hexval h1, hexval h2, hexval h3, hexval h4 with
        | Some d1, Some d2, Some d3, Some d4 =>
            (((d1 * 16 + d2) * 16 + d3) * 16 + d4)%Z
        | _, _, _, _ => (-1)%Z
        end
  | _ => (-1)%Z
  end.

(** The rewriting loop of [unquoteBytes] over the bytes between the
    quotes. [skip] counts the bytes the current step has already consumed
    beyond the one at the head ([r] advances by 2, 6 or 12 for an escape
    and by [size] for a multi-byte rune). [None] is [ok == false]. (The
    loop that precedes it in the source only finds the prefix that needs
    no rewriting and copies it; this loop copies such a prefix too.) *)
Fixpoint unquote_loop (skip : nat) (s : list byte) : option (list byte) :=
  match s with
  | [] => Some []
  | c :: s' =>
      match skip with
      | S k => unquote_loop k s'
      | O =>
          match c with
          | "\" =>
              match s' with
              | [] => None
              | e :: _ =>
                  match e with
                  | x22 | "\" | "/" | "'" => cons e <$> unquote_loop 1 s'
                  | "b" => cons x08 <$> unquote_loop 1 s'
                  | "f" => cons x0c <$> unquote_loop 1 s'
                  | "n" => cons x0a <$> unquote_loop 1 s'
                  | "r" => cons x0d <$> unquote_loop 1 s'
                  | "t" => cons x09 <$> unquote_loop 1 s'
                  | "u" =>
                      let rr := getu4 s in
                      if (rr <? 0)%Z then None
                      else if utf16.IsSurrogate rr then
                        let rr1 := getu4 (skipn 6 s) in
                        let dec := utf16.DecodeRune rr rr1 in
                        if negb (dec =? 0xFFFD)%Z
                        then app (utf8.EncodeRune dec) <$> unquote_loop 11 s'
                        else app (utf8.EncodeRune 0xFFFD) <$> unquote_loop 5 s'
                      else app (utf8.EncodeRune rr) <$> unquote_loop 5 s'
                  | _ => None
                  end
              end
          | x22 => None
          | _ =>
              if (Z_of_byte c <? 0x20)%Z then None
              else if (Z_of_byte c <? utf8.RuneSelf)%Z then cons c <$> unquote_loop 0 s'
              else
                let '(rr, size) := utf8.DecodeRune s in
                app (utf8.EncodeRune rr) <$> unquote_loop (size - 1) s'
          end
      end
  end.

(** [func unquoteBytes(s []byte) (t []byte, ok bool)] *)
Definition unquoteBytes (s : list byte) : option (list byte) :=
  match s with
  | x22 :: rest =>
      match rev rest with
      | x22 :: inner => unquote_loop 0 (rev inner)
      | _ => None
      end
  | _ => None
  end.

(** What decoding does to the destination: it stores a string, or leaves
    the destination as it is and may save an error, or the decoder
    panics ([panic(phasePanicMsg)]). *)
Inductive store_result :=
  | Stored (t : string)
  | Untouched (saved : option error)
  | Panic.

(** [func (d *decodeState) literalStore(item []byte, v reflect.Value,
    fromQuoted bool) error], for [v] of kind [reflect.String] and
    [fromQuoted == false]. The case of [null] is the one the package
    documents for [Unmarshal]: unmarshaling a JSON null into a Go type
    that is not an interface, map, pointer or slice has no effect on the
    value and produces no error. (On an empty [item] the source saves an
    error about the [,string] tag; [value] never passes one, since
    [rescanLiteral] returns at least the byte it starts at, and the
    branch is [Panic] here.) *)
Definition literalStore (item : list byte) : store_result :=
  match item with
  | [] => Panic
  | c :: _ =>
      match c with
      | "n" => Untouched None
      | "t" | "f" => Untouched (Some (UnmarshalTypeError "bool"))
      | x22 =>
          match unquoteBytes item with
          | Some s => Stored (string_of_list_byte s)
          | None => Panic
          end
      | _ =>
          if negb (Byte.eqb c "-") && negb (isDigit c) then Panic
          else Untouched (Some (UnmarshalTypeError "number"))
      end
  end.

(** [func (d *decodeState) value(v reflect.Value) error], for a string
    destination, on the input that starts at the byte whose opcode is
    [op]. *)
Definition value (op : opcode) (data : list byte) : store_result :=
  match op with
  | scanBeginArray => Untouched (Some (UnmarshalTypeError "array"))
  | scanBeginObject => Untouched (Some (UnmarshalTypeError "object"))
  | scanBeginLiteral => literalStore (rescanLiteral data)
  | _ => Panic
  end.

(** [d.unmarshal(v)] after a successful [checkValid]. *)
Definition unmarshal (data : list byte) : store_result :=
  let '(_, op, rest) := scanWhile_skipSpace reset data in
  value op rest.

(** [func Unmarshal(data []byte, v any) error] with [v] a non-nil
    [*string] that points to the string [v]: the string it points to
    afterwards, and the error returned. *)
Definition Unmarshal_string (data : list byte) (v : string)
    : outcome (string * option error) :=
  match checkValid data with
  | Some e => Return (v, Some e)
  | None =>
      match unmarshal data with
      | Stored t => Return (t, None)
      | Untouched e => Return (v, e)
      | Panic => Panics
      end
  end.

(** *** The encoder (encode.go), for a value of kind string *)

(** [htmlSafeSet[b]] for [b < utf8.RuneSelf]. *)
Definition htmlSafeSet (b : byte) : bool :=
  (0x20 <=? Z_of_byte b)%Z &&
  match b with
  | x22 | "&" | "<" | ">" | "\" => false
  | _ => true
  end.

(** [hex[i]] of the constant [hex = "0123456789abcdef"]. *)
Definition hex (i : Z) : byte :=
  if (i <? 10)%Z then byte_of_Z (0x30 + i) else byte_of_Z (0x61 + i - 10).

(** The loop of [appendString] with [escapeHTML == true], which is what
    [Marshal] sets; [skip] counts the bytes of the current rune still to
    step over. (The two-character escapes for backspace and form feed are
    those of Go 1.22 and later.) *)
Fixpoint appendString_loop (skip : nat) (src : list byte) : list byte :=
  match src with
  | [] => []
  | b :: src' =>
      match skip with
      | S k => appendString_loop k src'
      | O =>
          if (Z_of_byte b <? utf8.RuneSelf)%Z then
            if htmlSafeSet b then b :: appendString_loop 0 src'
            else
              match b with
              | "\" | x22 => "\" :: b :: appendString_loop 0 src'
              | x08 => "\" :: "b" :: appendString_loop 0 src'
              | x0c => "\" :: "f" :: appendString_loop 0 src'
              | x0a => "\" :: "n" :: appendString_loop 0 src'
              | x0d => "\" :: "r" :: appendString_loop 0 src'
              | x09 => "\" :: "t" :: appendString_loop 0 src'
              | _ =>
                  "\" :: "u" :: "0" :: "0"
                    :: hex (Z.shiftr (Z_of_byte b) 4)
                    :: hex (Z.land (Z_of_byte b) 0xF)
                    :: appendString_loop 0 src'
              end
          else
            let '(c, size) := utf8.DecodeRune (firstn 4 src) in
            if (c =? utf8.RuneError)%Z && (size =? 1)%nat then
              "\" :: "u" :: "f" :: "f" :: "f" :: "d" :: appendString_loop 0 src'
            else if (c =? 0x2028)%Z || (c =? 0x2029)%Z then
              "\" :: "u" :: "2" :: "0" :: "2" :: hex (Z.land c 0xF)
                :: appendString_loop (size - 1) src'
            else firstn size src ++ appendString_loop (size - 1) src'
      end
  end.

(** [func appendString(dst []byte, src string, escapeHTML bool) []byte]
    with an empty [dst] and [escapeHTML == true]. *)
Definition appendString (src : string) : list byte :=
  x22 :: appendString_loop 0 (list_byte_of_string src) ++ [x22].

(** [func Marshal(v any) ([]byte, error)] for [v] a Go string. *)
Definition Marshal_string (v : string) : list byte * option error :=
  (appendString v, None).

End json.

(** ** The methods of OutboxEventStatus *)

(** [func (e OutboxEventStatus) String() string] *)
Definition OutboxEventStatus_String (e : OutboxEventStatus) : string := e.

(** [func (n *OutboxEventStatus) UnmarshalJSON(data []byte) error]: the
    status [n] points to afterwards, and the error returned. *)
Definition UnmarshalJSON (n : OutboxEventStatus) (data : list byte)
    : outcome (OutboxEventStatus * option error) :=
  let s := EmptyString in
  match json.Unmarshal_string data s with
  | Panics => Panics
  | Return (s, Some err) => Return (n, Some err)
  | Return (s, None) => Return (s, None)
  end.

(** [func (n OutboxEventStatus) MarshalJSON() ([]byte, error)] *)
Definition MarshalJSON (n : OutboxEventStatus) : list byte * option error :=
  json.Marshal_string (OutboxEventStatus_String n).

Local Open Scope list_scope.

(** ** JSON texts

    The grammar of RFC 8259 for a string literal, read on bytes the way
    [encoding/json] reads it (a byte above [0x7F] is an unescaped
    character, whether or not it is part of well-formed UTF-8): unescaped
    bytes, two-character escapes and [\uXXXX] escapes. *)

Definition isUnescaped (c : byte) : bool :=
  (0x20 <=? Z_of_byte c)%Z && negb (Byte.eqb c x22) && negb (Byte.eqb c "\"%byte).

Definition isSimpleEscape (c : byte) : bool :=
  match c with
  | x22 | "\" | "/" | "b" | "f" | "n" | "r" | "t" => true
  | _ => false
  end%byte.

Inductive JSONChars : list byte → Prop :=
  | JSONChars_nil : JSONChars []
  | JSONChars_raw c s :
      isUnescaped c = true → JSONChars s → JSONChars (c :: s)
  | JSONChars_esc e s :
      isSimpleEscape e = true → JSONChars s → JSONChars ("\"%byte :: e :: s)
  | JSONChars_u h1 h2 h3 h4 s :
      json.isHex h1 = true → json.isHex h2 = true →
      json.isHex h3 = true → json.isHex h4 = true →
      JSONChars s →
      JSONChars ("\"%byte :: "u"%byte :: h1 :: h2 :: h3 :: h4 :: s).

Definition JSONSpaces (ws : list byte) : Prop :=
  Forall (λ c, json.isSpace c = true) ws.

(** A JSON text that is one string: a quoted literal with contents [body],
    between optional whitespace. *)
Definition JSONStringOf (body data : list byte) : Prop :=
  ∃ ws1 ws2, JSONSpaces ws1 ∧ JSONSpaces ws2 ∧ JSONChars body ∧
             data = ws1 ++ x22 :: body ++ x22 :: ws2.

Definition JSONString (data : list byte) : Prop :=
  ∃ body, JSONStringOf body data.

(** A JSON text that is the literal [null], between optional whitespace. *)
Definition JSONNull (data : list byte) : Prop :=
  ∃ ws1 ws2, JSONSpaces ws1 ∧ JSONSpaces ws2 ∧
             data = ws1 ++ list_byte_of_string "null" ++ ws2.

(** Printable ASCII other than the quote and the backslash: the bytes a
    string literal holds as they are. *)
Definition isPlain (c : byte) : bool :=
  (0x20 <=? Z_of_byte c)%Z && (Z_of_byte c <? 0x80)%Z
  && negb (Byte.eqb c x22) && negb (Byte.eqb c "\"%byte).

(** The JSON text of a string without characters that need an escape:
    the string between two quotes. *)
Definition quoted (s : string) : list byte :=
  x22 :: list_byte_of_string s ++ [x22].

(** ** Auxiliary definitions of the proofs *)

(** A scanner at the top level (empty parse stack, no error) whose [step]
    is [f], and the scanner after the top-level value has ended. *)
Definition at_top (f : json.state_fn) : json.scanner :=
  {| json.step := f; json.endTop := false; json.parseState := []; json.err := None |}.

Definition ended : json.scanner :=
  {| json.step := json.stateEndTop; json.endTop := true; json.parseState := [];
     json.err := None |}.

(** The state after each of the four digits of a [\u] escape. *)
Definition hex_next (f : json.state_fn) : option json.state_fn :=
  match f with
  | json.stateInStringEscU => Some json.stateInStringEscU1
  | json.stateInStringEscU1 => Some json.stateInStringEscU12
  | json.stateInStringEscU12 => Some json.stateInStringEscU123
  | json.stateInStringEscU123 => Some json.stateInString
  | _ => None
  end.

(** A byte outside ASCII. *)
Definition nonASCII (b : byte) : Prop := (0x80 ≤ Z_of_byte b)%Z.

(** The tests' setting: keys are [mockEventType] values, a channel is the
    address of a [*mockChannel]. *)
Definition UserCreated : mockEventType := {| name := "UserCreated"; id := 1 |}.
Definition UserUpdated : mockEventType := {| name := "UserUpdated"; id := 2 |}.

Definition test_manager : outboxEventManagerImpl mockEventType nat :=
  run_ops [OpRegister UserCreated (Some 1%nat)] NewOutboxEventManager.

(** A generator that never repeats and a clock that advances. *)
Definition test_world : World :=
  {| uuid_source := λ i, pretty i; time_source := λ i, Z.of_nat i;
     uuid_calls := 0; time_calls := 0 |}.

(** A generator that hands out the same value at every call, as
    [uuid.New] does once [uuid.SetRand] has installed a reader of zero
    bytes, and a clock that advances. *)
Definition repeating_world : World :=
  {| uuid_source := λ _, "00000000-0000-4000-8000-000000000000";
     time_source := λ i, Z.of_nat i;
     uuid_calls := 0; time_calls := 0 |}.

Local Close Scope Z_scope.

(** ** Further definitions: runs of registrations, the mock channel of the
    tests, routing, well-formed UTF-8 *)

Section ManagerRuns.
Context {K : Type} `{Countable K} {C : Type}.

(** The channel of the first [RegisterEventChannel] for key [k] in a
    sequence of operations, if there is one. *)
Fixpoint first_registration (k : K) (ops : list (manager_op K C))
    : option (OutboxEventChannel C) :=
  match ops with
  | [] => None
  | OpRegister k' c :: ops' =>
      if decide (k' = k) then Some c else first_registration k ops'
  | OpGetChannel _ :: ops' => first_registration k ops'
  end.

(** Calls of [RegisterEventChannel] one after the other, as the tests make
    them, with the error each call returns. *)
Fixpoint register_all (l : list (K * OutboxEventChannel C))
    (m : outboxEventManagerImpl K C)
    : outboxEventManagerImpl K C * list (option error) :=
  match l with
  | [] => (m, [])
  | (k, c) :: l' =>
      let '(m1, e) := RegisterEventChannel k c m in
      let '(m2, es) := register_all l' m1 in
      (m2, e :: es)
  end.

End ManagerRuns.

(** [type mockChannel struct] of event_manager_test.go. *)
Record mockChannel (P : Type) := {
  registered : bool;
  events : list (OutboxEvent P)
}.
Arguments registered {P} _.
Arguments events {P} _.

(** [func (m *mockChannel) RegisterEvent(event OutboxEvent) error], on the
    struct the receiver points to. *)
Definition mockChannel_RegisterEvent {P} (m : mockChannel P) (event : OutboxEvent P)
    : mockChannel P * option error :=
  ({| registered := registered m; events := events m ++ [event] |}, None).

(** The tests hold their channels as [*mockChannel]: the store maps the
    address of each allocated channel to its struct, and the interface
    value registered with the manager is the address. *)
Abbreviation channel_store P := (gmap nat (mockChannel P)) (only parsing).

Section Routing.
Context {K : Type} `{Countable K} {P : Type}.

(** [channel.RegisterEvent(event)] on an [OutboxEventChannel] interface
    value that holds a [*mockChannel]: a nil interface value (or a nil
    pointer in it) panics. *)
Definition RegisterEvent (channel : OutboxEventChannel nat) (event : OutboxEvent P)
    (h : channel_store P) : outcome (channel_store P * option error) :=
  match channel with
  | None => Panics
  | Some p =>
      match h !! p with
      | None => Panics
      | Some m =>
          let '(m', e) := mockChannel_RegisterEvent m event in
          Return (<[p := m']> h, e)
      end
  end.

(** The two lines every caller in the tests and the guides writes:
    [channel, _ := manager.GetChannel(eventType)] and then
    [channel.RegisterEvent(event)], the error of [GetChannel] dropped. *)
Definition route (eventType : K) (event : OutboxEvent P)
    (m : outboxEventManagerImpl K nat) (h : channel_store P)
    : outcome (channel_store P * option error) :=
  let '(_, (channel, _)) := GetChannel eventType m in
  RegisterEvent channel event h.

(** Routing a list of events, each under its key, in order; the first
    panic ends the run. *)
Fixpoint route_all (l : list (K * OutboxEvent P))
    (m : outboxEventManagerImpl K nat) (h : channel_store P)
    : outcome (channel_store P) :=
  match l with
  | [] => Return h
  | (k, e) :: l' =>
      match route k e m h with
      | Panics => Panics
      | Return (h', _) => route_all l' m h'
      end
  end.

End Routing.

(** ** Well-formed UTF-8 *)

Local Open Scope Z_scope.

(** A continuation byte. *)
Definition is_cont (b : byte) : Prop := 0x80 ≤ Z_of_byte b ≤ 0xBF.

(** The well-formed byte sequences of more than one byte and the code
    points they encode (the Unicode Standard, table 3-7). *)
Inductive utf8_seq : list byte → Z → Prop :=
  | utf8_seq2 p0 b1 :
      0xC2 ≤ Z_of_byte p0 ≤ 0xDF → is_cont b1 →
      utf8_seq [p0; b1]
        ((Z_of_byte p0 - 0xC0) * 64 + (Z_of_byte b1 - 0x80))
  | utf8_seq3 p0 b1 b2 :
      0xE0 ≤ Z_of_byte p0 ≤ 0xEF → is_cont b1 → is_cont b2 →
      (Z_of_byte p0 = 0xE0 → 0xA0 ≤ Z_of_byte b1) →
      (Z_of_byte p0 = 0xED → Z_of_byte b1 ≤ 0x9F) →
      utf8_seq [p0; b1; b2]
        ((Z_of_byte p0 - 0xE0) * 4096 + (Z_of_byte b1 - 0x80) * 64
         + (Z_of_byte b2 - 0x80))
  | utf8_seq4 p0 b1 b2 b3 :
      0xF0 ≤ Z_of_byte p0 ≤ 0xF4 → is_cont b1 → is_cont b2 → is_cont b3 →
      (Z_of_byte p0 = 0xF0 → 0x90 ≤ Z_of_byte b1) →
      (Z_of_byte p0 = 0xF4 → Z_of_byte b1 ≤ 0x8F) →
      utf8_seq [p0; b1; b2; b3]
        ((Z_of_byte p0 - 0xF0) * 262144 + (Z_of_byte b1 - 0x80) * 4096
         + (Z_of_byte b2 - 0x80) * 64 + (Z_of_byte b3 - 0x80)).

(** Reading a byte string rune by rune with [utf8.DecodeRune], as a Go
    [range] loop over a string does: [wellFormed] tells whether no position
    gives an encoding error ([RuneError] of width 1), [coerce] replaces each
    byte that gives one by the encoding of U+FFFD and keeps the rest.
    [skip] counts the bytes of the current rune still to step over. *)
Fixpoint wellFormed_loop (skip : nat) (p : list byte) : bool :=
  match p with
  | [] => true
  | _ :: p' =>
      match skip with
      | S k => wellFormed_loop k p'
      | O =>
          let '(c, size) := utf8.DecodeRune p in
          if (c =? utf8.RuneError) && (size =? 1)%nat then false
          else wellFormed_loop (size - 1) p'
      end
  end.

Fixpoint coerce_loop (skip : nat) (p : list byte) : list byte :=
  match p with
  | [] => []
  | _ :: p' =>
      match skip with
      | S k => coerce_loop k p'
      | O =>
          let '(c, size) := utf8.DecodeRune p in
          if (c =? utf8.RuneError) && (size =? 1)%nat
          then utf8.EncodeRune utf8.RuneError ++ coerce_loop 0 p'
          else firstn size p ++ coerce_loop (size - 1) p'
      end
  end.

Definition wellFormedUTF8 (s : string) : bool :=
  wellFormed_loop 0 (list_byte_of_string s).

Definition coerceUTF8 (s : string) : string :=
  string_of_list_byte (coerce_loop 0 (list_byte_of_string s)).

(** The kind of JSON value a first byte other than a quote and [n]
    announces, as [UnmarshalTypeError.Value] names it. *)
Definition value_kind (c : byte) : option string :=
  match c with
  | "["%byte => Some "array"
  | "{"%byte => Some "object"
  | "t"%byte | "f"%byte => Some "bool"
  | "-"%byte => Some "number"
  | _ => if json.isDigit c then Some "number" else None
  end.

(** A byte that is not below [0x20] and none of [<], [>], [&]. (The byte
    [0x7F] and the bytes of the controls U+0080 to U+009F pass: the
    encoder writes DEL and those controls as they are.) *)
Definition isHTMLSafe (c : byte) : bool :=
  (0x20 <=? Z_of_byte c)
  && negb (Byte.eqb c "<"%byte) && negb (Byte.eqb c ">"%byte)
  && negb (Byte.eqb c "&"%byte).

(** Well-formed UTF-8 of such bytes only. *)
Definition clean (l : list byte) : Prop :=
  wellFormed_loop 0 l = true ∧ forallb isHTMLSafe l = true.

(** The scanner stores no other error than a syntax error, is in
    [stateError] only with an error stored, and, once the top-level value
    has ended, is in [stateEndTop] or [stateError]. [step_ok r] says so of
    the scanner a step returns, and that a step returning [scanError] has
    stored an error. *)
Definition scanner_inv (s : json.scanner) : Prop :=
  (json.step s = json.stateError → json.err s = Some SyntaxError)
  ∧ (json.err s = None ∨ json.err s = Some SyntaxError)
  ∧ (json.endTop s = true →
     json.step s = json.stateEndTop ∨ json.step s = json.stateError).

Definition step_ok (r : json.scanner * json.opcode) : Prop :=
  scanner_inv (fst r)
  ∧ (snd r = json.scanError → json.err (fst r) = Some SyntaxError).

(** The fixtures of [TestOutboxEventManager_ChannelIsolation]: two event
    types, each with a channel of its own, and one event for each. *)
Definition test_manager2 : outboxEventManagerImpl mockEventType nat :=
  run_ops [OpRegister UserCreated (Some 1%nat); OpRegister UserUpdated (Some 2%nat)]
    NewOutboxEventManager.

Definition test_store : channel_store unit :=
  {[ 1%nat := {| registered := false; events := [] |};
     2%nat := {| registered := false; events := [] |} ]}.

Definition test_requests : list (mockEventType * string * string * unit) :=
  [(UserCreated, "User", "user-1", tt); (UserUpdated, "User", "user-2", tt)].

Definition test_routes : list (mockEventType * OutboxEvent unit) :=
  zip [UserCreated; UserUpdated] (create_events test_requests test_world).

Local Close Scope Z_scope.

(** * Properties *)

(** ** The registry *)

Section ManagerFacts.
Context {K : Type} `{Countable K} {C : Type}.
Implicit Types (m : outboxEventManagerImpl K C) (k : K) (c : option C).

Lemma GetChannel_state k m : fst (GetChannel k m) = m.
Proof. unfold GetChannel. by destruct (eventChannels m !! k). Qed.

Lemma GetChannel_bound k m c :
  eventChannels m !! k = Some c → snd (GetChannel k m) = (c, None).
Proof. intros Hk. unfold GetChannel. by rewrite Hk. Qed.

Lemma GetChannel_unbound k m :
  eventChannels m !! k = None →
  snd (GetChannel k m) = (None, Some (errors_New "outbox event channel not found")).
Proof. intros Hk. unfold GetChannel. by rewrite Hk. Qed.

Lemma Register_bound k c m c0 :
  eventChannels m !! k = Some c0 →
  RegisterEventChannel k c m =
    (m, Some (errors_New "event channel already registered for this event type")).
Proof. intros Hk. unfold RegisterEventChannel. by rewrite Hk. Qed.

Lemma Register_unbound k c m :
  eventChannels m !! k = None →
  RegisterEventChannel k c m =
    ({| ctx := ctx m; eventChannels := <[k := c]> (eventChannels m) |}, None).
Proof. intros Hk. unfold RegisterEventChannel. by rewrite Hk. Qed.

(** A binding survives one operation, whatever the operation. *)
Lemma apply_op_keeps m o k c :
  eventChannels m !! k = Some c →
  eventChannels (apply_op m o) !! k = Some c.
Proof.
  intros Hk. destruct o as [k' c'|k']; simpl.
  - unfold RegisterEventChannel.
    destruct (eventChannels m !! k') eqn:Hk'; simpl; [done|].
    rewrite lookup_insert_ne; [done|]. intros ->. congruence.
  - by rewrite GetChannel_state.
Qed.

Lemma run_ops_keeps ops m k c :
  eventChannels m !! k = Some c →
  eventChannels (run_ops ops m) !! k = Some c.
Proof.
  revert m. induction ops as [|o ops IH]; intros m Hk; simpl; [done|].
  apply IH. by apply apply_op_keeps.
Qed.

Lemma run_ops_app ops1 ops2 m :
  run_ops (ops1 ++ ops2) m = run_ops ops2 (run_ops ops1 m).
Proof. apply fold_left_app. Qed.

(** C2. Registering under a key that already has a channel returns the
    duplicate-registration error, leaves the manager as it was, and a
    following [GetChannel] on the key still returns the channel that was
    registered first. *)
Theorem RegisterEventChannel_duplicate k c c0 m :
  eventChannels m !! k = Some c0 →
  snd (RegisterEventChannel k c m) =
    Some (errors_New "event channel already registered for this event type")
  ∧ fst (RegisterEventChannel k c m) = m
  ∧ snd (GetChannel k (fst (RegisterEventChannel k c m))) = (c0, None).
Proof.
  intros Hk. rewrite (Register_bound k c m c0 Hk). simpl.
  repeat split. by apply GetChannel_bound.
Qed.

(** C5. [GetChannel] returns the bound channel and no error when the key
    has a binding, in particular right after the registration that bound
    it; it returns a nil channel and the not-found error when the key has
    none; and it leaves the manager as it was. *)
Theorem GetChannel_lookup k m :
  fst (GetChannel k m) = m
  ∧ (∀ c, eventChannels m !! k = Some c → snd (GetChannel k m) = (c, None))
  ∧ (eventChannels m !! k = None →
     snd (GetChannel k m) =
       (None, Some (errors_New "outbox event channel not found")))
  ∧ (∀ c, snd (RegisterEventChannel k c m) = None →
          snd (GetChannel k (fst (RegisterEventChannel k c m))) = (c, None)).
Proof.
  split; [apply GetChannel_state|].
  split; [intros c; apply GetChannel_bound|].
  split; [apply GetChannel_unbound|].
  intros c. unfold RegisterEventChannel.
  destruct (eventChannels m !! k) eqn:Hk; simpl; [done|].
  intros _. apply GetChannel_bound. simpl. apply lookup_insert_eq.
Qed.

(** C6. From a fresh manager, once a sequence of operations has bound a
    key to a channel, the binding is there after any further operations,
    and [GetChannel] on the key returns that channel. *)
Theorem bindings_grow_monotonically (ops1 ops2 : list (manager_op K C)) k c :
  eventChannels (run_ops ops1 NewOutboxEventManager) !! k = Some c →
  eventChannels (run_ops (ops1 ++ ops2) NewOutboxEventManager) !! k = Some c
  ∧ snd (GetChannel k (run_ops (ops1 ++ ops2) NewOutboxEventManager)) = (c, None).
Proof.
  intros Hk.
  assert (eventChannels (run_ops (ops1 ++ ops2) NewOutboxEventManager) !! k = Some c)
    as Hk' by (rewrite run_ops_app; by apply run_ops_keeps).
  split; [done|]. by apply GetChannel_bound.
Qed.

(** C10. A registration that returns an error leaves the manager as it
    was; one that succeeds adds the binding for its key, which had none,
    and changes nothing else: the binding of every other key is as
    before. *)
Theorem RegisterEventChannel_frame k c m :
  (snd (RegisterEventChannel k c m) ≠ None →
     fst (RegisterEventChannel k c m) = m)
  ∧ (snd (RegisterEventChannel k c m) = None →
       eventChannels m !! k = None
       ∧ ctx (fst (RegisterEventChannel k c m)) = ctx m
       ∧ eventChannels (fst (RegisterEventChannel k c m))
           = <[k := c]> (eventChannels m)
       ∧ ∀ k', k' ≠ k →
           eventChannels (fst (RegisterEventChannel k c m)) !! k'
             = eventChannels m !! k').
Proof.
  unfold RegisterEventChannel.
  destruct (eventChannels m !! k) eqn:Hk; simpl.
  - split; [done|]. intros [=].
  - split; [done|]. intros _. repeat split.
    intros k' Hne. by rewrite lookup_insert_ne.
Qed.

End ManagerFacts.

Lemma RegisterEventChannel_duplicate_witness :
  eventChannels test_manager !! UserCreated = Some (Some 1%nat)
  ∧ snd (RegisterEventChannel UserCreated (Some 2%nat) test_manager) =
      Some (errors_New "event channel already registered for this event type")
  ∧ fst (RegisterEventChannel UserCreated (Some 2%nat) test_manager) = test_manager
  ∧ snd (GetChannel UserCreated
           (fst (RegisterEventChannel UserCreated (Some 2%nat) test_manager)))
      = (Some 1%nat, None).
Proof.
  assert (eventChannels test_manager !! UserCreated = Some (Some 1%nat)) as Hk
    by (vm_compute; reflexivity).
  split; [exact Hk|].
  exact (RegisterEventChannel_duplicate UserCreated (Some 2%nat) (Some 1%nat)
           test_manager Hk).
Defined.

Lemma GetChannel_lookup_witness :
  snd (GetChannel UserCreated test_manager) = (Some 1%nat, None)
  ∧ snd (GetChannel UserUpdated test_manager) =
      (None, Some (errors_New "outbox event channel not found"))
  ∧ snd (GetChannel UserUpdated
           (fst (RegisterEventChannel UserUpdated (Some 2%nat) test_manager)))
      = (Some 2%nat, None).
Proof.
  destruct (GetChannel_lookup UserCreated test_manager) as (_ & Hbound & _ & _).
  destruct (GetChannel_lookup UserUpdated test_manager) as (_ & _ & Hfree & Hreg).
  split; [apply Hbound; vm_compute; reflexivity|].
  split; [apply Hfree; vm_compute; reflexivity|].
  apply Hreg. vm_compute; reflexivity.
Defined.

Lemma bindings_grow_monotonically_witness :
  eventChannels
    (run_ops ([OpRegister UserCreated (Some 1%nat)] ++
              [OpRegister UserCreated (Some 2%nat); OpGetChannel UserCreated;
               OpRegister UserUpdated (Some 3%nat)])
       NewOutboxEventManager) !! UserCreated = Some (Some 1%nat)
  ∧ snd (GetChannel UserCreated
           (run_ops ([OpRegister UserCreated (Some 1%nat)] ++
                     [OpRegister UserCreated (Some 2%nat); OpGetChannel UserCreated;
                      OpRegister UserUpdated (Some 3%nat)])
              NewOutboxEventManager)) = (Some 1%nat, None).
Proof.
  apply (bindings_grow_monotonically
           [OpRegister UserCreated (Some 1%nat)]
           [OpRegister UserCreated (Some 2%nat); OpGetChannel UserCreated;
            OpRegister UserUpdated (Some 3%nat)]
           UserCreated (Some 1%nat)).
  vm_compute; reflexivity.
Defined.

Lemma RegisterEventChannel_frame_witness :
  fst (RegisterEventChannel UserCreated (Some 2%nat) test_manager) = test_manager
  ∧ eventChannels (fst (RegisterEventChannel UserUpdated (Some 2%nat) test_manager))
      !! UserCreated = eventChannels test_manager !! UserCreated.
Proof.
  split.
  - apply (proj1 (RegisterEventChannel_frame UserCreated (Some 2%nat) test_manager)).
    vm_compute; discriminate.
  - apply (proj2 (RegisterEventChannel_frame UserUpdated (Some 2%nat) test_manager));
      [vm_compute; reflexivity|discriminate].
Defined.

(** ** The event factory *)

Section EventFacts.
Context {T : Type} `{OutboxEventType T} {P : Type}.
Implicit Types (w : World) (reqs : list (T * string * string * P)).

Lemma CreateNewEvent_world (eventType : T) aggT aggID (payload : P) w :
  snd (CreateNewEvent eventType aggT aggID payload w) =
    {| uuid_source := uuid_source w; time_source := time_source w;
       uuid_calls := S (uuid_calls w); time_calls := S (time_calls w) |}.
Proof. reflexivity. Qed.

(** The identifiers of a run are consecutive draws of the generator. *)
Lemma create_events_ids reqs w :
  EventID <$> create_events reqs w =
    (λ i, uuid_source w (uuid_calls w + i)%nat) <$> seq 0 (length reqs).
Proof.
  revert w. induction reqs as [|[[[et aggT] aggID] payload] reqs IH]; intros w.
  - reflexivity.
  - cbn [create_events].
    destruct (CreateNewEvent et aggT aggID payload w) as [e w'] eqn:He.
    pose proof (CreateNewEvent_world et aggT aggID payload w) as Hw.
    rewrite He in Hw. simpl in Hw. subst w'.
    assert (EventID e = uuid_source w (uuid_calls w)) as Hid.
    { replace e with (fst (CreateNewEvent et aggT aggID payload w))
        by (by rewrite He). reflexivity. }
    cbn [fmap list_fmap length seq]. rewrite Hid.
    f_equal; [by rewrite Nat.add_0_r|].
    change (list_fmap _ _ EventID (create_events reqs ?w)) with
      (EventID <$> create_events reqs w).
    rewrite IH. cbn [uuid_source uuid_calls].
    rewrite <- (fmap_S_seq 0), <- list_fmap_compose.
    apply list_fmap_ext. intros _ i _. simpl. f_equal. lia.
Qed.

Lemma create_events_length reqs w : length (create_events reqs w) = length reqs.
Proof.
  rewrite <- (length_fmap EventID), create_events_ids.
  by rewrite length_fmap, length_seq.
Qed.

(** C3 (as amended). [CreateNewEvent] returns an event for every input:
    its status is ["pending"], its type the name the event type gives, its
    identifier the value the generator hands out at this call, its
    timestamp the clock's value at this call, and the aggregate strings
    and payload are the arguments. A run of calls gives one event per
    call, and their identifiers are the generator's values in call order:
    they are pairwise distinct exactly when those values are, which the
    code does not check. *)
Theorem CreateNewEvent_spec (eventType : T) aggT aggID (payload : P) w :
  let e := fst (CreateNewEvent eventType aggT aggID payload w) in
  let w' := snd (CreateNewEvent eventType aggT aggID payload w) in
  EventStatus e = "pending"
  ∧ EventType e = GetName eventType
  ∧ EventID e = uuid_source w (uuid_calls w)
  ∧ uuid_calls w' = S (uuid_calls w)
  ∧ CreatedAt e = time_source w (time_calls w)
  ∧ AggregateType e = aggT ∧ AggregateID e = aggID ∧ Payload e = payload
  ∧ ∀ reqs,
      length (create_events reqs w) = length reqs
      ∧ EventID <$> create_events reqs w =
          (λ i, uuid_source w (uuid_calls w + i)%nat) <$> seq 0 (length reqs)
      ∧ (NoDup (EventID <$> create_events reqs w)
         ↔ ∀ i j, (i < length reqs)%nat → (j < length reqs)%nat →
             uuid_source w (uuid_calls w + i) = uuid_source w (uuid_calls w + j) →
             i = j).
Proof.
  cbn zeta. repeat (split; [reflexivity|]).
  intros reqs. split; [apply create_events_length|].
  split; [apply create_events_ids|].
  rewrite create_events_ids. split.
  - intros Hnd i j Hi Hj Hij.
    apply (proj1 (NoDup_alt _) Hnd i j (uuid_source w (uuid_calls w + i)));
      rewrite list_lookup_fmap.
    + by rewrite (lookup_seq_lt 0 (length reqs) i Hi).
    + rewrite (lookup_seq_lt 0 (length reqs) j Hj). cbn. by rewrite Hij.
  - intros Hinj. apply NoDup_fmap_2_strong; [|apply NoDup_seq].
    intros i j [_ Hi]%elem_of_seq [_ Hj]%elem_of_seq Hij.
    apply Hinj; [lia|lia|done].
Qed.

(** C7 (as amended). The event's type is the string the event type's
    [GetName] returns, whatever it is: it is non-empty exactly when that
    name is. *)
Theorem CreateNewEvent_event_type (eventType : T) aggT aggID (payload : P) w :
  EventType (fst (CreateNewEvent eventType aggT aggID payload w))
    = GetName eventType
  ∧ (EventType (fst (CreateNewEvent eventType aggT aggID payload w)) ≠ EmptyString
     ↔ GetName eventType ≠ EmptyString).
Proof. split; reflexivity. Qed.

End EventFacts.

Lemma CreateNewEvent_spec_witness :
  NoDup (EventID <$> create_events
           [({| name := "UserCreated"; id := 1 |}, "User", "user-123", tt);
            ({| name := "UserCreated"; id := 1 |}, "User", "user-123", tt);
            ({| name := "UserCreated"; id := 1 |}, "User", "user-123", tt)]
           test_world).
Proof.
  refine (proj2 (proj2 (proj2
    (proj2 (proj2 (proj2 (proj2 (proj2 (proj2 (proj2 (proj2
       (CreateNewEvent_spec {| name := "UserCreated"; id := 1 |}
          "User" "user-123" tt test_world)))))))) _))) _).
  intros i j _ _ Hij. simpl in Hij. by apply (inj pretty) in Hij.
Defined.

(** C3, the claim as stated fails: when the generator hands out the same
    value twice, two events are constructed, with the same identifier. *)
Lemma CreateNewEvent_repeated_ids :
  length (create_events test_requests repeating_world) = 2%nat
  ∧ ¬ NoDup (EventID <$> create_events test_requests repeating_world).
Proof.
  split; [reflexivity|].
  intros Hnd. apply NoDup_cons in Hnd as [Hnot _].
  apply Hnot. cbn. left.
Qed.

(** C7, the claim as stated fails: an event type whose name is empty gives
    an event whose type is empty. *)
Lemma CreateNewEvent_empty_event_type :
  ¬ (EventType (fst (CreateNewEvent {| name := EmptyString; id := 0 |}
                       "User" "user-123" tt test_world)) ≠ EmptyString).
Proof. intros Hne. by apply Hne. Qed.

(** Case analysis on a byte by enumeration. *)
Ltac by_byte c := destruct c; try discriminate; try reflexivity; auto.

(** ** The scanner on string literals and on [null] *)

Module scan_facts.
Import json.
Local Open Scope byte_scope.

Lemma isHex_isUnescaped c : isHex c = true → isUnescaped c = true.
Proof. by_byte c. Qed.

(** Once an error is stored, validation fails whatever follows. *)
Lemma checkValid_from_stateError b ps e data :
  checkValid_from {| step := stateError; endTop := b; parseState := ps; err := Some e |} data
    = Some e.
Proof. destruct data; reflexivity. Qed.

(** After the top-level value, only whitespace may follow. *)
Lemma checkValid_ended data :
  checkValid_from ended data = None ↔ JSONSpaces data.
Proof.
  induction data as [|c data IH].
  - split; [constructor|reflexivity].
  - cbn [checkValid_from scan_step step ended]. unfold do_stateEndTop.
    destruct (isSpace c) eqn:Hc.
    + fold ended. rewrite IH. split.
      * by constructor.
      * by inversion 1.
    + cbn. rewrite checkValid_from_stateError. split; [done|].
      inversion 1; congruence.
Qed.

Lemma checkValid_endValue data :
  checkValid_from (at_top stateEndValue) data = None ↔ JSONSpaces data.
Proof.
  destruct data as [|c data].
  - split; [constructor|reflexivity].
  - rewrite <- checkValid_ended.
    cbn [checkValid_from scan_step step at_top do_stateEndValue parseState err].
    reflexivity.
Qed.

(** One byte through the scanner inside a string literal. *)
Lemma inString_quote r :
  checkValid_from (at_top stateInString) (x22 :: r)
    = checkValid_from (at_top stateEndValue) r.
Proof. reflexivity. Qed.

Lemma inString_backslash r :
  checkValid_from (at_top stateInString) ("\" :: r)
    = checkValid_from (at_top stateInStringEsc) r.
Proof. reflexivity. Qed.

Lemma inString_unescaped c r :
  isUnescaped c = true →
  checkValid_from (at_top stateInString) (c :: r)
    = checkValid_from (at_top stateInString) r.
Proof. by_byte c. Qed.

Lemma inString_other c r :
  isUnescaped c = false → c ≠ x22 → c ≠ "\" →
  checkValid_from (at_top stateInString) (c :: r) = Some SyntaxError.
Proof. intros Hu Hq Hb. destruct c; try discriminate; try reflexivity; congruence. Qed.

Lemma inStringEsc_simple e r :
  isSimpleEscape e = true →
  checkValid_from (at_top stateInStringEsc) (e :: r)
    = checkValid_from (at_top stateInString) r.
Proof. by_byte e. Qed.

Lemma inStringEsc_u r :
  checkValid_from (at_top stateInStringEsc) ("u" :: r)
    = checkValid_from (at_top stateInStringEscU) r.
Proof. reflexivity. Qed.

Lemma inStringEsc_other e r :
  isSimpleEscape e = false → e ≠ "u" →
  checkValid_from (at_top stateInStringEsc) (e :: r) = Some SyntaxError.
Proof. intros Hs Hu. destruct e; try discriminate; try reflexivity; congruence. Qed.

Lemma inStringEscU_hex f g c r :
  hex_next f = Some g →
  checkValid_from (at_top f) (c :: r)
    = if isHex c then checkValid_from (at_top g) r else Some SyntaxError.
Proof.
  intros Hf. destruct f; try discriminate; injection Hf as <-;
    cbn [checkValid_from scan_step step at_top]; unfold do_hex;
    by destruct (isHex c).
Qed.

Lemma inStringEscU_nil f g :
  hex_next f = Some g → checkValid_from (at_top f) [] = Some SyntaxError.
Proof. by destruct f. Qed.

(** The scanner accepts, after an opening quote, exactly the contents of
    a string literal, a closing quote and whitespace. *)
Lemma checkValid_inString_complete body ws :
  JSONChars body → JSONSpaces ws →
  checkValid_from (at_top stateInString) (body ++ x22 :: ws) = None.
Proof.
  intros Hbody Hws.
  induction Hbody as [|c s Hc _ IH|e s He _ IH|h1 h2 h3 h4 s H1 H2 H3 H4 _ IH];
    cbn [app].
  - rewrite inString_quote. by apply checkValid_endValue.
  - by rewrite inString_unescaped.
  - by rewrite inString_backslash, inStringEsc_simple.
  - rewrite inString_backslash, inStringEsc_u.
    rewrite (inStringEscU_hex _ stateInStringEscU1), H1 by done.
    rewrite (inStringEscU_hex _ stateInStringEscU12), H2 by done.
    rewrite (inStringEscU_hex _ stateInStringEscU123), H3 by done.
    by rewrite (inStringEscU_hex _ stateInString), H4.
Qed.

(** One hexadecimal digit of an accepted [\u] escape. *)
Lemma inStringEscU_inv f g data :
  hex_next f = Some g →
  checkValid_from (at_top f) data = None →
  ∃ h r, data = h :: r ∧ isHex h = true ∧ checkValid_from (at_top g) r = None.
Proof.
  intros Hf Hv. destruct data as [|h r].
  - by rewrite (inStringEscU_nil f g) in Hv.
  - rewrite (inStringEscU_hex f g) in Hv by done.
    destruct (isHex h) eqn:Hh; [|discriminate]. by exists h, r.
Qed.

Lemma checkValid_inString_sound n :
  ∀ data, (length data < n)%nat →
    checkValid_from (at_top stateInString) data = None →
    ∃ body ws, JSONChars body ∧ JSONSpaces ws ∧ data = body ++ x22 :: ws.
Proof.
  induction n as [|n IH]; intros data Hlen Hv; [lia|].
  destruct data as [|c r]; [discriminate|].
  destruct (byte_eq_dec c x22) as [->|Hq].
  { exists [], r. split; [constructor|]. split; [|done].
    by apply checkValid_endValue. }
  destruct (byte_eq_dec c "\") as [->|Hb].
  - rewrite inString_backslash in Hv.
    destruct r as [|e r]; [discriminate|].
    destruct (byte_eq_dec e "u") as [->|Hu].
    + rewrite inStringEsc_u in Hv.
      apply (inStringEscU_inv _ stateInStringEscU1) in Hv as (h1 & r1 & -> & H1 & Hv); [|done].
      apply (inStringEscU_inv _ stateInStringEscU12) in Hv as (h2 & r2 & -> & H2 & Hv); [|done].
      apply (inStringEscU_inv _ stateInStringEscU123) in Hv as (h3 & r3 & -> & H3 & Hv); [|done].
      apply (inStringEscU_inv _ stateInString) in Hv as (h4 & r4 & -> & H4 & Hv); [|done].
      destruct (IH r4) as (body & ws & Hbody & Hws & ->); [simpl in Hlen; lia|done|].
      exists ("\" :: "u" :: h1 :: h2 :: h3 :: h4 :: body), ws.
      split; [by constructor|]. done.
    + destruct (isSimpleEscape e) eqn:He.
      * rewrite inStringEsc_simple in Hv by done.
        destruct (IH r) as (body & ws & Hbody & Hws & ->); [simpl in Hlen; lia|done|].
        exists ("\" :: e :: body), ws. split; [by constructor|]. done.
      * rewrite inStringEsc_other in Hv by done. discriminate.
  - destruct (isUnescaped c) eqn:Hc.
    + rewrite inString_unescaped in Hv by done.
      destruct (IH r) as (body & ws & Hbody & Hws & ->); [simpl in Hlen; lia|done|].
      exists (c :: body), ws. split; [by constructor|]. done.
    + rewrite inString_other in Hv by done. discriminate.
Qed.

Lemma checkValid_inString data :
  checkValid_from (at_top stateInString) data = None ↔
  ∃ body ws, JSONChars body ∧ JSONSpaces ws ∧ data = body ++ x22 :: ws.
Proof.
  split.
  - apply (checkValid_inString_sound (S (length data))). lia.
  - intros (body & ws & Hbody & Hws & ->). by apply checkValid_inString_complete.
Qed.

(** The scanner accepts, after an [n], exactly [ull] and whitespace. *)
Lemma checkValid_stateN data :
  checkValid_from (at_top stateN) data = None ↔
  ∃ ws, JSONSpaces ws ∧ data = "u" :: "l" :: "l" :: ws.
Proof.
  split.
  - intros Hv.
    destruct data as [|c1 data]; [discriminate|].
    cbn [checkValid_from scan_step step at_top] in Hv. unfold do_letter in Hv.
    destruct (Byte.eqb c1 "u") eqn:E1; [|discriminate].
    apply byte_dec_bl in E1 as ->.
    destruct data as [|c2 data]; [discriminate|].
    cbn [checkValid_from scan_step step set_step] in Hv. unfold do_letter in Hv.
    destruct (Byte.eqb c2 "l") eqn:E2; [|discriminate].
    apply byte_dec_bl in E2 as ->.
    destruct data as [|c3 data]; [discriminate|].
    cbn [checkValid_from scan_step step set_step] in Hv. unfold do_letter in Hv.
    destruct (Byte.eqb c3 "l") eqn:E3; [|discriminate].
    apply byte_dec_bl in E3 as ->.
    exists data. split; [|done]. by apply checkValid_endValue.
  - intros (ws & Hws & ->). by apply checkValid_endValue.
Qed.

(** Leading whitespace is skipped, by the validation and by the decoder. *)
Lemma checkValid_spaces ws data :
  JSONSpaces ws → checkValid (ws ++ data) = checkValid data.
Proof.
  unfold checkValid. induction 1 as [|c ws Hc _ IH]; [done|].
  cbn [app checkValid_from scan_step step reset]. unfold do_stateBeginValue.
  rewrite Hc. exact IH.
Qed.

Lemma scanWhile_spaces ws data :
  JSONSpaces ws →
  scanWhile_skipSpace reset (ws ++ data) = scanWhile_skipSpace reset data.
Proof.
  induction 1 as [|c ws Hc _ IH]; [done|].
  cbn [app scanWhile_skipSpace scan_step step reset]. unfold do_stateBeginValue.
  rewrite Hc. exact IH.
Qed.

Lemma unmarshal_spaces ws data :
  JSONSpaces ws → unmarshal (ws ++ data) = unmarshal data.
Proof. intros Hws. unfold unmarshal. by rewrite scanWhile_spaces. Qed.

(** Every input is whitespace followed by nothing or by a byte that is
    not whitespace. *)
Lemma split_spaces data :
  ∃ ws d, JSONSpaces ws ∧ data = ws ++ d ∧
          match d with [] => True | c :: _ => isSpace c = false end.
Proof.
  induction data as [|c data (ws & d & Hws & -> & Hd)].
  - exists [], []. split; [constructor|done].
  - destruct (isSpace c) eqn:Hc.
    + exists (c :: ws), d. split; [by constructor|done].
    + exists [], (c :: ws ++ d). split; [constructor|done].
Qed.

End scan_facts.
(** ** The decoder on string literals *)

Module decode_facts.
Import json.
Local Open Scope byte_scope.
Local Open Scope Z_scope.

(** A multi-byte sequence announces continuation bytes above [0x80]. *)
Lemma first_seq_inv z sz lo hi :
  utf8.first z = utf8.first_seq sz lo hi → 0x80 ≤ lo.
Proof.
  unfold utf8.first. repeat case_match; intros [=]; subst; lia.
Qed.

(** [DecodeRune] consumes its first byte and continuation bytes only. *)
Lemma DecodeRune_size c p :
  ∃ pre post, p = pre ++ post
    ∧ length pre = (snd (utf8.DecodeRune (c :: p)) - 1)%nat
    ∧ Forall nonASCII pre.
Proof.
  unfold utf8.DecodeRune.
  destruct (utf8.first (Z_of_byte c)) as [| |sz lo hi] eqn:Hf;
    [by exists [], p|by exists [], p|].
  apply first_seq_inv in Hf.
  destruct p as [|b1 p]; [by exists [], []|].
  destruct (_ <? _)%nat; [by exists [], (b1 :: p)|].
  destruct (_ || _) eqn:H1; [by exists [], (b1 :: p)|].
  apply orb_false_iff in H1 as [H1 _].
  assert (nonASCII b1) by (unfold nonASCII; lia).
  destruct (sz <=? 2)%nat; [exists [b1], p; by repeat constructor|].
  destruct p as [|b2 p]; [by exists [], [b1]|].
  destruct (_ || _) eqn:H2; [by exists [], (b1 :: b2 :: p)|].
  apply orb_false_iff in H2 as [H2 _].
  assert (nonASCII b2) by (unfold nonASCII; lia).
  destruct (sz <=? 3)%nat; [exists [b1; b2], p; by repeat constructor|].
  destruct p as [|b3 p]; [by exists [], [b1; b2]|].
  destruct (_ || _) eqn:H3; [by exists [], (b1 :: b2 :: b3 :: p)|].
  apply orb_false_iff in H3 as [H3 _].
  assert (nonASCII b3) by (unfold nonASCII; lia).
  exists [b1; b2; b3], p; by repeat constructor.
Qed.

(** Bytes above [0x80] are unescaped characters of a literal. *)
Lemma JSONChars_drop_nonASCII pre post :
  Forall nonASCII pre → JSONChars (pre ++ post) → JSONChars post.
Proof.
  induction 1 as [|b pre Hb _ IH]; [done|].
  cbn [app]. inversion 1; subst; [by apply IH|..];
    unfold nonASCII in Hb; vm_compute in Hb; by destruct Hb.
Qed.

Lemma JSONChars_u_inv h1 h2 h3 h4 s :
  JSONChars ("\" :: "u" :: h1 :: h2 :: h3 :: h4 :: s)%byte → JSONChars s.
Proof. inversion 1; subst; [discriminate|discriminate|done]. Qed.

(** The loop [rescanLiteral] runs over a literal stops at its closing
    quote. *)
Lemma rescan_string_unescaped c data :
  isUnescaped c = true →
  rescan_string false (c :: data) = c :: rescan_string false data.
Proof. by_byte c. Qed.

Lemma rescan_string_escaped e data :
  rescan_string false ("\" :: e :: data)%byte
    = ("\" :: e :: rescan_string false data)%byte.
Proof. reflexivity. Qed.

Lemma rescan_string_chars body ws :
  JSONChars body →
  rescan_string false (body ++ x22 :: ws) = body ++ [x22].
Proof.
  induction 1 as [|c s Hc _ IH|e s He _ IH|h1 h2 h3 h4 s H1 H2 H3 H4 _ IH];
    cbn [app].
  - reflexivity.
  - rewrite rescan_string_unescaped by done. by rewrite IH.
  - by rewrite rescan_string_escaped, IH.
  - rewrite rescan_string_escaped.
    rewrite !rescan_string_unescaped by (by apply scan_facts.isHex_isUnescaped).
    by rewrite IH.
Qed.

(** [unquoteBytes] steps over the bytes it has consumed. *)
Lemma unquote_loop_skip k s :
  unquote_loop k s = unquote_loop 0 (skipn k s).
Proof.
  revert k. induction s as [|c s IH]; intros [|k]; try reflexivity.
  cbn [unquote_loop skipn]. apply IH.
Qed.

Lemma unquote_loop_unescaped c s :
  isUnescaped c = true →
  unquote_loop 0 (c :: s) =
    if Z_of_byte c <? utf8.RuneSelf then cons c <$> unquote_loop 0 s
    else app (utf8.EncodeRune (fst (utf8.DecodeRune (c :: s))))
           <$> unquote_loop (snd (utf8.DecodeRune (c :: s)) - 1) s.
Proof.
  intros Hc. destruct c; try discriminate; try reflexivity;
    cbn [unquote_loop]; by destruct (utf8.DecodeRune _).
Qed.

Lemma unquote_loop_escape e s :
  isSimpleEscape e = true →
  ∃ b, unquote_loop 0 ("\"%byte :: e :: s) = cons b <$> unquote_loop 0 s.
Proof. intros He. destruct e; try discriminate; by eexists. Qed.

Lemma hexval_isHex h : isHex h = true → ∃ d, hexval h = Some d ∧ 0 ≤ d.
Proof. intros Hh. destruct h; try discriminate; eexists; by vm_compute. Qed.

Lemma getu4_hex h1 h2 h3 h4 s :
  isHex h1 = true → isHex h2 = true → isHex h3 = true → isHex h4 = true →
  0 ≤ getu4 ("\" :: "u" :: h1 :: h2 :: h3 :: h4 :: s)%byte.
Proof.
  intros (d1 & E1 & ?)%hexval_isHex (d2 & E2 & ?)%hexval_isHex
         (d3 & E3 & ?)%hexval_isHex (d4 & E4 & ?)%hexval_isHex.
  cbn [getu4 Byte.eqb]. cbn. rewrite E1, E2, E3, E4. lia.
Qed.

Lemma getu4_nonneg_inv s :
  0 ≤ getu4 s →
  ∃ g1 g2 g3 g4 s', s = ("\" :: "u" :: g1 :: g2 :: g3 :: g4 :: s')%byte.
Proof.
  destruct s as [|s0 [|s1 [|g1 [|g2 [|g3 [|g4 s']]]]]]; cbn [getu4]; try lia.
  destruct (Byte.eqb s0 "\") eqn:E0; [|cbn; lia].
  destruct (Byte.eqb s1 "u") eqn:E1; [|cbn; lia].
  apply byte_dec_bl in E0 as ->. apply byte_dec_bl in E1 as ->.
  intros _. by exists g1, g2, g3, g4, s'.
Qed.

(** A valid pair of surrogates decodes to something else than U+FFFD, and
    only a valid pair does. *)
Lemma utf16_DecodeRune_pair r1 r2 :
  utf16.DecodeRune r1 r2 ≠ 0xFFFD → 0 ≤ r2.
Proof.
  unfold utf16.DecodeRune. destruct (_ && _) eqn:Hc; [|done].
  intros _. apply andb_true_iff in Hc as [Hc _].
  apply andb_true_iff in Hc as [_ Hc]. lia.
Qed.

(** The step of [unquoteBytes] at a [\u] escape. *)
Lemma unquote_loop_u h1 h2 h3 h4 s :
  unquote_loop 0 ("\" :: "u" :: h1 :: h2 :: h3 :: h4 :: s)%byte =
    let rr := getu4 ("\" :: "u" :: h1 :: h2 :: h3 :: h4 :: s)%byte in
    if rr <? 0 then None
    else if utf16.IsSurrogate rr then
      if negb (utf16.DecodeRune rr (getu4 s) =? 0xFFFD)
      then app (utf8.EncodeRune (utf16.DecodeRune rr (getu4 s))) <$> unquote_loop 6 s
      else app (utf8.EncodeRune 0xFFFD) <$> unquote_loop 0 s
    else app (utf8.EncodeRune rr) <$> unquote_loop 0 s.
Proof. reflexivity. Qed.

(** [unquoteBytes] succeeds on the contents of every string literal. *)
Lemma unquote_loop_chars n :
  ∀ s, (length s < n)%nat → JSONChars s → is_Some (unquote_loop 0 s).
Proof.
  induction n as [|n IH]; intros s Hlen Hs; [lia|].
  inversion Hs as [|c s' Hc Hs'|e s' He Hs'|h1 h2 h3 h4 s' H1 H2 H3 H4 Hs']; subst.
  - by eexists.
  - rewrite unquote_loop_unescaped by done.
    destruct (_ <? _).
    + apply fmap_is_Some, IH; [simpl in Hlen; lia|done].
    + apply fmap_is_Some. rewrite unquote_loop_skip.
      destruct (DecodeRune_size c s') as (pre & post & Heq & Hpre & Hhi).
      rewrite <- Hpre. subst s'. rewrite drop_app_length.
      apply IH; [simpl in Hlen; rewrite length_app in Hlen; lia|].
      by apply (JSONChars_drop_nonASCII pre).
  - destruct (unquote_loop_escape e s' He) as [b ->].
    apply fmap_is_Some, IH; [simpl in Hlen; lia|done].
  - pose proof (getu4_hex h1 h2 h3 h4 s' H1 H2 H3 H4) as Hrr.
    rewrite unquote_loop_u. cbv zeta.
    destruct (_ <? 0) eqn:Hneg; [lia|].
    assert (is_Some (unquote_loop 0 s')) as Hrest
      by (apply IH; [simpl in Hlen; lia|done]).
    destruct (utf16.IsSurrogate _); [|by apply fmap_is_Some].
    destruct (_ =? 0xFFFD) eqn:Hdec; cbn [negb]; [by apply fmap_is_Some|].
    apply fmap_is_Some.
    apply Z.eqb_neq, utf16_DecodeRune_pair, getu4_nonneg_inv in Hdec
      as (g1 & g2 & g3 & g4 & s'' & Heq).
    subst s'. rewrite unquote_loop_skip. cbn [skipn]. rewrite drop_0.
    apply IH; [simpl in Hlen; lia|].
    by apply JSONChars_u_inv in Hs'.
Qed.

Lemma unquoteBytes_literal body :
  unquoteBytes (x22 :: body ++ [x22]) = unquote_loop 0 body.
Proof.
  unfold unquoteBytes. rewrite rev_app_distr. cbn [rev app].
  by rewrite rev_involutive.
Qed.

(** *** [json.Unmarshal] into a string, by the shape of the input *)

(** A JSON string is decoded and stored. *)
Lemma unmarshal_string body data :
  JSONStringOf body data →
  checkValid data = None
  ∧ ∃ t, unquote_loop 0 body = Some t
         ∧ unmarshal data = Stored (string_of_list_byte t).
Proof.
  intros (ws1 & ws2 & Hws1 & Hws2 & Hbody & ->).
  rewrite scan_facts.checkValid_spaces, scan_facts.unmarshal_spaces by done.
  split.
  - change (checkValid (x22 :: body ++ x22 :: ws2)) with
      (checkValid_from (at_top stateInString) (body ++ x22 :: ws2)).
    by apply scan_facts.checkValid_inString_complete.
  - destruct (unquote_loop_chars (S (length body)) body) as [t Ht]; [lia|done|].
    exists t. split; [done|].
    unfold unmarshal.
    cbn [scanWhile_skipSpace scan_step step reset do_stateBeginValue isSpace
           value rescanLiteral].
    rewrite rescan_string_chars by done.
    cbn [literalStore]. by rewrite unquoteBytes_literal, Ht.
Qed.

(** [null] leaves the destination as it is. *)
Lemma unmarshal_null data :
  JSONNull data → checkValid data = None ∧ unmarshal data = Untouched None.
Proof.
  intros (ws1 & ws2 & Hws1 & Hws2 & ->).
  rewrite scan_facts.checkValid_spaces, scan_facts.unmarshal_spaces by done.
  split; [|reflexivity].
  change (checkValid (list_byte_of_string "null" ++ ws2)) with
    (checkValid_from (at_top stateN) ("u" :: "l" :: "l" :: ws2)%byte).
  apply scan_facts.checkValid_stateN. by exists ws2.
Qed.

(** Any other first byte fails the validation or is a value of another
    kind, which a string cannot hold. *)
Lemma unmarshal_other c r :
  isSpace c = false → c ≠ x22 → c ≠ "n"%byte →
  (∃ e, checkValid (c :: r) = Some e)
  ∨ (∃ e, unmarshal (c :: r) = Untouched (Some e)).
Proof.
  intros Hsp Hq Hn.
  destruct c; try discriminate; try congruence;
    first [left; eexists; reflexivity | right; eexists; reflexivity].
Qed.

(** Every input is a JSON string, or [null], or is refused with an
    error: the decoder never panics on a [*string] destination. *)
Lemma Unmarshal_string_cases data v :
  (∃ body t, JSONStringOf body data ∧ unquote_loop 0 body = Some t
             ∧ Unmarshal_string data v = Return (string_of_list_byte t, None))
  ∨ (JSONNull data ∧ Unmarshal_string data v = Return (v, None))
  ∨ (∃ e, Unmarshal_string data v = Return (v, Some e)).
Proof.
  unfold Unmarshal_string.
  destruct (checkValid data) as [e|] eqn:Hv; [right; right; by exists e|].
  destruct (scan_facts.split_spaces data) as (ws & d & Hws & -> & Hd).
  rewrite scan_facts.checkValid_spaces in Hv by done.
  destruct d as [|c r]; [discriminate|].
  destruct (byte_eq_dec c x22) as [->|Hq].
  { apply scan_facts.checkValid_inString in Hv as (body & ws2 & Hbody & Hws2 & ->).
    assert (JSONStringOf body (ws ++ x22 :: body ++ x22 :: ws2)) as Hstr
      by (by exists ws, ws2).
    destruct (unmarshal_string _ _ Hstr) as (_ & t & Ht & ->).
    left. by exists body, t. }
  destruct (byte_eq_dec c "n"%byte) as [->|Hn].
  { apply scan_facts.checkValid_stateN in Hv as (ws2 & Hws2 & ->).
    assert (JSONNull (ws ++ list_byte_of_string "null" ++ ws2)) as Hnull
      by (by exists ws, ws2).
    destruct (unmarshal_null _ Hnull) as (_ & Hu).
    right; left. split; [done|]. cbn [list_byte_of_string] in Hu. 
    change ("n" :: "u" :: "l" :: "l" :: ws2)%byte with (list_byte_of_string "null" ++ ws2).
    by rewrite Hu. }
  rewrite scan_facts.unmarshal_spaces by done.
  destruct (unmarshal_other c r Hd Hq Hn) as [[e He]|[e He]]; [congruence|].
  rewrite He. right; right. by exists e.
Qed.

Lemma Unmarshal_string_string body data v :
  JSONStringOf body data →
  ∃ t, unquote_loop 0 body = Some t
       ∧ Unmarshal_string data v = Return (string_of_list_byte t, None).
Proof.
  intros (Hv & t & Ht & Hu)%unmarshal_string. exists t. split; [done|].
  unfold Unmarshal_string. by rewrite Hv, Hu.
Qed.

Lemma Unmarshal_string_null data v :
  JSONNull data → Unmarshal_string data v = Return (v, None).
Proof.
  intros (Hv & Hu)%unmarshal_null. unfold Unmarshal_string. by rewrite Hv, Hu.
Qed.

(** Printable ASCII other than the quote and the backslash is copied. *)
Lemma unquote_loop_plain body :
  forallb isPlain body = true → unquote_loop 0 body = Some body.
Proof.
  induction body as [|c body IH]; [done|].
  cbn [forallb]. intros [Hc Hbody]%andb_true_iff.
  assert (isUnescaped c = true ∧ (Z_of_byte c <? utf8.RuneSelf) = true) as [Hu Hlt]
    by (by destruct c).
  by rewrite unquote_loop_unescaped, Hlt, IH.
Qed.

Lemma JSONChars_plain body : forallb isPlain body = true → JSONChars body.
Proof.
  induction body as [|c body IH]; [constructor|].
  cbn [forallb]. intros [Hc Hbody]%andb_true_iff.
  apply JSONChars_raw; [by destruct c|by apply IH].
Qed.

(** *** The encoder writes a string literal *)

Lemma appendString_loop_skip k src :
  appendString_loop k src = appendString_loop 0 (skipn k src).
Proof.
  revert k. induction src as [|c src IH]; intros [|k]; try reflexivity.
  cbn [appendString_loop skipn]. apply IH.
Qed.

Lemma JSONChars_app_unescaped pre s :
  Forall (λ c, isUnescaped c = true) pre → JSONChars s → JSONChars (pre ++ s).
Proof. induction 1; [done|]. intros Hs. cbn [app]. constructor; auto. Qed.

Lemma nonASCII_isUnescaped c : nonASCII c → isUnescaped c = true.
Proof. unfold nonASCII. destruct c; try reflexivity; vm_compute; by intros []. Qed.

Lemma appendString_loop_ascii b src :
  (Z_of_byte b <? utf8.RuneSelf) = true →
  JSONChars (appendString_loop 0 src) →
  JSONChars (appendString_loop 0 (b :: src)).
Proof.
  intros Hb Hsrc.
  destruct b; try discriminate;
    first [ by apply JSONChars_raw
          | by apply JSONChars_esc
          | by apply JSONChars_u ].
Qed.

Lemma appendString_loop_chars n :
  ∀ src, (length src < n)%nat → JSONChars (appendString_loop 0 src).
Proof.
  induction n as [|n IH]; intros src Hlen; [lia|].
  destruct src as [|b src]; [constructor|].
  destruct (Z_of_byte b <? utf8.RuneSelf) eqn:Hb.
  { apply appendString_loop_ascii; [done|]. apply IH. simpl in Hlen. lia. }
  assert (nonASCII b) as Hhi by (unfold nonASCII, utf8.RuneSelf in *; lia).
  cbn [appendString_loop]. rewrite Hb.
  assert (∀ k, JSONChars (appendString_loop k src)) as Hrest.
  { intros k. rewrite appendString_loop_skip. apply IH.
    rewrite length_drop. simpl in Hlen. lia. }
  destruct (DecodeRune_size b (firstn 3 src)) as (pre & post & Heq & Hpre & Hpre_hi).
  change (b :: firstn 3 src) with (firstn 4 (b :: src)) in Hpre.
  destruct (utf8.DecodeRune (firstn 4 (b :: src))) as [c size].
  cbn [snd] in Hpre.
  destruct (_ && _); [by apply JSONChars_u|].
  destruct (_ || _) eqn:Hc.
  - apply JSONChars_u; try done.
    apply orb_true_iff in Hc as [->%Z.eqb_eq| ->%Z.eqb_eq]; reflexivity.
  - destruct size as [|size]; [apply Hrest|].
    cbn [firstn app]. apply JSONChars_raw; [by apply nonASCII_isUnescaped|].
    apply JSONChars_app_unescaped; [|apply Hrest].
    replace (firstn size src) with pre.
    + eapply Forall_impl; [done|]. apply nonASCII_isUnescaped.
    + assert (length pre = size) as <- by lia.
      assert (length pre ≤ 3)%nat as Hle.
      { apply (f_equal length) in Heq.
        rewrite length_take, length_app in Heq. lia. }
      assert (firstn (length pre) (firstn 3 src) = pre) as Hp
        by (by rewrite Heq, take_app_length).
      rewrite take_take in Hp. by rewrite Nat.min_l in Hp.
Qed.

Lemma appendString_literal src :
  ∃ body, appendString src = x22 :: body ++ [x22] ∧ JSONChars body.
Proof.
  exists (appendString_loop 0 (list_byte_of_string src)). split; [done|].
  apply (appendString_loop_chars (S (length (list_byte_of_string src)))). lia.
Qed.
End decode_facts.

(** ** OutboxEventStatus: JSON in and out *)

Section StatusFacts.
Implicit Types (n : OutboxEventStatus) (data body : list byte).

Lemma UnmarshalJSON_string n body data :
  JSONStringOf body data →
  ∃ t, json.unquote_loop 0 body = Some t
       ∧ UnmarshalJSON n data = Return (string_of_list_byte t, None).
Proof.
  intros Hstr.
  destruct (decode_facts.Unmarshal_string_string body data EmptyString Hstr) as (t & Ht & Hu).
  exists t. split; [done|]. unfold UnmarshalJSON. by rewrite Hu.
Qed.

Lemma UnmarshalJSON_null n data :
  JSONNull data → UnmarshalJSON n data = Return (EmptyString, None).
Proof.
  intros Hnull. unfold UnmarshalJSON.
  by rewrite (decode_facts.Unmarshal_string_null data EmptyString Hnull).
Qed.

Lemma UnmarshalJSON_cases n data :
  (JSONString data ∧ ∃ n', UnmarshalJSON n data = Return (n', None))
  ∨ (JSONNull data ∧ UnmarshalJSON n data = Return (EmptyString, None))
  ∨ (∃ e, UnmarshalJSON n data = Return (n, Some e)).
Proof.
  destruct (decode_facts.Unmarshal_string_cases data EmptyString)
    as [(body & t & Hstr & _ & Hu)|[[Hnull Hu]|[e Hu]]];
    unfold UnmarshalJSON; rewrite Hu.
  - left. split; [by exists body|by eexists].
  - right; left. done.
  - right; right. by exists e.
Qed.

Lemma UnmarshalJSON_error_iff n data :
  (∃ e, UnmarshalJSON n data = Return (n, Some e))
  ↔ ¬ (JSONString data ∨ JSONNull data).
Proof.
  split.
  - intros [e He] [[body Hstr]|Hnull].
    + destruct (UnmarshalJSON_string n body data Hstr) as (t & _ & Ht). congruence.
    + rewrite (UnmarshalJSON_null n data Hnull) in He. congruence.
  - intros Hno. destruct (UnmarshalJSON_cases n data) as [[Hs _]|[[Hn _]|He]]; tauto.
Qed.

Lemma UnmarshalJSON_plain n s :
  forallb isPlain (list_byte_of_string s) = true →
  UnmarshalJSON n (quoted s) = Return (s, None).
Proof.
  intros Hs.
  assert (JSONStringOf (list_byte_of_string s) (quoted s)) as Hstr.
  { exists [], []. repeat split; try constructor.
    by apply decode_facts.JSONChars_plain. }
  destruct (UnmarshalJSON_string n _ _ Hstr) as (t & Ht & ->).
  rewrite decode_facts.unquote_loop_plain in Ht by done.
  injection Ht as <-. by rewrite string_of_list_byte_of_string.
Qed.

(** C1 (as amended). [UnmarshalJSON] accepts the JSON texts ["pending"],
    ["closed"] and ["failed"] and stores the matching status; on an input
    that is neither a JSON string nor [null] it returns an error and
    leaves the status as it was. It does not validate the value: every
    other JSON string is accepted too, and the string its literal decodes
    to is stored, which for a literal of plain characters is the string
    as written. *)
Theorem UnmarshalJSON_enumerants n :
  UnmarshalJSON n (quoted "pending") = Return (OutboxEventStatusPending, None)
  ∧ UnmarshalJSON n (quoted "closed") = Return (OutboxEventStatusClosed, None)
  ∧ UnmarshalJSON n (quoted "failed") = Return (OutboxEventStatusFailed, None)
  ∧ (∀ data, ¬ JSONString data → ¬ JSONNull data →
       ∃ e, UnmarshalJSON n data = Return (n, Some e))
  ∧ (∀ body data, JSONStringOf body data →
       ∃ t, json.unquote_loop 0 body = Some t
            ∧ UnmarshalJSON n data = Return (string_of_list_byte t, None))
  ∧ (∀ s, forallb isPlain (list_byte_of_string s) = true →
       UnmarshalJSON n (quoted s) = Return (s, None)).
Proof.
  repeat split; try (by apply UnmarshalJSON_plain).
  - intros data Hs Hn. apply UnmarshalJSON_error_iff. tauto.
  - intros body data. apply UnmarshalJSON_string.
Qed.

(** C4. For each of the three statuses, [MarshalJSON] succeeds and
    [UnmarshalJSON] of its output stores the status again. *)
Theorem status_roundtrip n s :
  s ∈ [OutboxEventStatusPending; OutboxEventStatusClosed; OutboxEventStatusFailed] →
  snd (MarshalJSON s) = None
  ∧ UnmarshalJSON n (fst (MarshalJSON s)) = Return (s, None).
Proof.
  intros Hs. split; [done|].
  rewrite !elem_of_cons, elem_of_nil in Hs.
  destruct Hs as [->|[->|[->|[]]]]; by vm_compute.
Qed.

(** C8 (as amended). [UnmarshalJSON] returns an error exactly when its
    input is neither a JSON string nor [null]. On every JSON string it
    succeeds and stores the string the literal decodes to, whatever it is:
    a literal of plain characters is stored as written. On [null] it
    succeeds and stores the empty string. *)
Theorem UnmarshalJSON_stores_any_string n data :
  ((∃ e, UnmarshalJSON n data = Return (n, Some e))
     ↔ ¬ (JSONString data ∨ JSONNull data))
  ∧ (∀ body, JSONStringOf body data →
       ∃ t, json.unquote_loop 0 body = Some t
            ∧ UnmarshalJSON n data = Return (string_of_list_byte t, None))
  ∧ (∀ s, forallb isPlain (list_byte_of_string s) = true → data = quoted s →
       UnmarshalJSON n data = Return (s, None))
  ∧ (JSONNull data → UnmarshalJSON n data = Return (EmptyString, None)).
Proof.
  split; [apply UnmarshalJSON_error_iff|].
  split; [intros body; apply UnmarshalJSON_string|].
  split; [intros s Hs ->; by apply UnmarshalJSON_plain|].
  apply UnmarshalJSON_null.
Qed.

End StatusFacts.

(** C1, the claim as stated fails: a JSON string that is none of the three
    literals is accepted and stored. *)
Lemma UnmarshalJSON_accepts_unknown_status :
  (quoted "bogus" ∉ [quoted "pending"; quoted "closed"; quoted "failed"])
  ∧ UnmarshalJSON OutboxEventStatusPending (quoted "bogus") = Return ("bogus", None).
Proof.
  split; [|by vm_compute].
  rewrite !elem_of_cons, elem_of_nil. by intros [[=]|[[=]|[[=]|[]]]].
Qed.

Lemma UnmarshalJSON_enumerants_witness :
  ∃ e, UnmarshalJSON OutboxEventStatusClosed (list_byte_of_string "invalid")
       = Return (OutboxEventStatusClosed, Some e).
Proof.
  assert (UnmarshalJSON OutboxEventStatusClosed (list_byte_of_string "invalid")
          = Return (OutboxEventStatusClosed, Some SyntaxError)) as Herr
    by (vm_compute; reflexivity).
  apply (proj1 (proj2 (proj2 (proj2
    (UnmarshalJSON_enumerants OutboxEventStatusClosed))))).
  - intros [body Hs].
    destruct (UnmarshalJSON_string OutboxEventStatusClosed body _ Hs) as (t & _ & Ht).
    rewrite Herr in Ht. discriminate Ht.
  - intros Hn.
    rewrite (UnmarshalJSON_null OutboxEventStatusClosed _ Hn) in Herr.
    discriminate Herr.
Defined.

Lemma status_roundtrip_witness :
  snd (MarshalJSON OutboxEventStatusClosed) = None
  ∧ UnmarshalJSON OutboxEventStatusPending (fst (MarshalJSON OutboxEventStatusClosed))
    = Return (OutboxEventStatusClosed, None).
Proof.
  apply (status_roundtrip OutboxEventStatusPending OutboxEventStatusClosed).
  rewrite !elem_of_cons. right; left; reflexivity.
Defined.

(** C8, the claim as stated fails: [null] is not a JSON string, and
    [UnmarshalJSON] returns no error on it. *)
Lemma UnmarshalJSON_null_is_no_error :
  ¬ JSONString (list_byte_of_string "null")
  ∧ UnmarshalJSON OutboxEventStatusPending (list_byte_of_string "null")
    = Return (EmptyString, None).
Proof.
  split; [|by vm_compute].
  intros (body & ws1 & ws2 & _ & _ & _ & Heq).
  assert (x22 ∈ [x6e; x75; x6c; x6c]) as Hin.
  { change [x6e; x75; x6c; x6c] with (list_byte_of_string "null").
    rewrite Heq. set_solver. }
  rewrite !elem_of_cons, elem_of_nil in Hin.
  by destruct Hin as [[=]|[[=]|[[=]|[[=]|[]]]]].
Qed.

Lemma UnmarshalJSON_stores_any_string_witness :
  UnmarshalJSON OutboxEventStatusPending (quoted "shipped") = Return ("shipped", None).
Proof.
  refine (proj1 (proj2 (proj2
    (UnmarshalJSON_stores_any_string OutboxEventStatusPending (quoted "shipped"))))
    "shipped" _ _); reflexivity.
Defined.

(** ** The package's tests, replayed on the embedding *)

(** [TestOutboxEventStatus_String] *)
Example test_OutboxEventStatus_String :
  OutboxEventStatus_String OutboxEventStatusPending = "pending"
  ∧ OutboxEventStatus_String OutboxEventStatusClosed = "closed"
  ∧ OutboxEventStatus_String OutboxEventStatusFailed = "failed".
Proof. by repeat split. Qed.

(** [TestOutboxEventStatus_MarshalJSON] *)
Example test_OutboxEventStatus_MarshalJSON :
  MarshalJSON OutboxEventStatusPending = (quoted "pending", None)
  ∧ MarshalJSON OutboxEventStatusClosed = (quoted "closed", None)
  ∧ MarshalJSON OutboxEventStatusFailed = (quoted "failed", None).
Proof. by repeat split. Qed.

(** [TestOutboxEventStatus_UnmarshalJSON]: the three literals, and the
    input [invalid], which is not JSON. *)
Example test_OutboxEventStatus_UnmarshalJSON :
  UnmarshalJSON EmptyString (quoted "pending") = Return (OutboxEventStatusPending, None)
  ∧ UnmarshalJSON EmptyString (quoted "closed") = Return (OutboxEventStatusClosed, None)
  ∧ UnmarshalJSON EmptyString (quoted "failed") = Return (OutboxEventStatusFailed, None)
  ∧ UnmarshalJSON EmptyString (list_byte_of_string "invalid")
    = Return (EmptyString, Some SyntaxError).
Proof. repeat split; by vm_compute. Qed.

(** [TestOutboxEventManager_RegisterEventChannel_PreventOverwrite]: two
    channels under one key. *)
Example test_RegisterEventChannel_PreventOverwrite :
  let m0 : outboxEventManagerImpl mockEventType nat := NewOutboxEventManager in
  let (m1, err1) := RegisterEventChannel UserCreated (Some 1%nat) m0 in
  let (m2, err2) := RegisterEventChannel UserCreated (Some 2%nat) m1 in
  err1 = None
  ∧ err2 = Some (errors_New "event channel already registered for this event type")
  ∧ snd (GetChannel UserCreated m2) = (Some 1%nat, None).
Proof. by vm_compute. Qed.

(** [TestOutboxEventManager_GetChannel_NotFound] *)
Example test_GetChannel_NotFound :
  snd (GetChannel {| name := "NonExistent"; id := 999 |}
         (NewOutboxEventManager : outboxEventManagerImpl mockEventType nat))
  = (None, Some (errors_New "outbox event channel not found")).
Proof. by vm_compute. Qed.

(** [TestCreateNewEvent], on the fields that do not depend on the world. *)
Example test_CreateNewEvent :
  let e := fst (CreateNewEvent UserCreated "User" "user-123" tt test_world) in
  EventType e = "UserCreated" ∧ EventStatus e = "pending"
  ∧ AggregateType e = "User" ∧ AggregateID e = "user-123".
Proof. by repeat split. Qed.

(** * Further properties *)

(** ** The registry over runs of operations *)

Section ManagerRunFacts.
Context {K : Type} `{Countable K} {C : Type}.
Implicit Types (m : outboxEventManagerImpl K C) (k : K) (c : option C).

Lemma run_ops_lookup (ops : list (manager_op K C)) m k :
  eventChannels (run_ops ops m) !! k =
    match eventChannels m !! k with
    | Some c => Some c
    | None => first_registration k ops
    end.
Proof.
  revert m. induction ops as [|[k' c'|k'] ops IH]; intros m; cbn [run_ops fold_left].
  - by destruct (eventChannels m !! k).
  - fold (run_ops ops (apply_op m (OpRegister k' c'))). rewrite IH.
    cbn [apply_op first_registration]. unfold RegisterEventChannel.
    destruct (eventChannels m !! k') as [c0|] eqn:Hk'; cbn [fst eventChannels].
    + destruct (eventChannels m !! k) eqn:Hk; [done|].
      case_decide; [congruence|done].
    + case_decide as Hkk.
      * subst k'. by rewrite lookup_insert_eq, Hk'.
      * by rewrite lookup_insert_ne.
  - fold (run_ops ops (apply_op m (OpGetChannel k'))). rewrite IH.
    cbn [apply_op first_registration]. unfold GetChannel.
    by destruct (eventChannels m !! k').
Qed.

(** X1. After any sequence of operations on a fresh manager, [GetChannel]
    answers a key with the channel of the first registration made for it
    in the sequence, and with the not-found error when the sequence has
    none. *)
Theorem GetChannel_first_registration (ops : list (manager_op K C)) k :
  snd (GetChannel k (run_ops ops NewOutboxEventManager)) =
    match first_registration k ops with
    | Some c => (c, None)
    | None => (None, Some (errors_New "outbox event channel not found"))
    end.
Proof.
  unfold GetChannel. rewrite run_ops_lookup.
  cbn [NewOutboxEventManager eventChannels]. rewrite lookup_empty.
  by destruct (first_registration k ops).
Qed.

(** X2. A nil channel can be registered: the call succeeds, [GetChannel]
    then returns a nil channel together with a nil error, and the key is
    taken, so that a later registration of a real channel under it
    fails. *)
Theorem RegisterEventChannel_nil_channel k m :
  eventChannels m !! k = None →
  snd (RegisterEventChannel k None m) = None
  ∧ snd (GetChannel k (fst (RegisterEventChannel k None m))) = (None, None)
  ∧ ∀ c, snd (RegisterEventChannel k c (fst (RegisterEventChannel k None m))) =
           Some (errors_New "event channel already registered for this event type").
Proof.
  intros Hk. unfold RegisterEventChannel at 1 2 4. rewrite Hk. cbn [fst snd].
  split; [done|]. split.
  - unfold GetChannel. cbn [eventChannels]. by rewrite lookup_insert_eq.
  - intros c. unfold RegisterEventChannel. cbn [eventChannels].
    by rewrite lookup_insert_eq.
Qed.

(** X3. Registrations under two different keys do not affect each other:
    each returns the same error whether it comes first or second, and both
    orders leave the same manager. *)
Theorem RegisterEventChannel_commute k1 k2 c1 c2 m :
  k1 ≠ k2 →
  snd (RegisterEventChannel k2 c2 (fst (RegisterEventChannel k1 c1 m)))
    = snd (RegisterEventChannel k2 c2 m)
  ∧ snd (RegisterEventChannel k1 c1 (fst (RegisterEventChannel k2 c2 m)))
    = snd (RegisterEventChannel k1 c1 m)
  ∧ fst (RegisterEventChannel k2 c2 (fst (RegisterEventChannel k1 c1 m)))
    = fst (RegisterEventChannel k1 c1 (fst (RegisterEventChannel k2 c2 m))).
Proof.
  intros Hne. unfold RegisterEventChannel.
  destruct (eventChannels m !! k1) eqn:H1, (eventChannels m !! k2) eqn:H2;
    cbn [fst snd eventChannels ctx];
    rewrite ?lookup_insert_ne by done; rewrite ?H1, ?H2; cbn [fst snd ctx eventChannels];
    try done.
  repeat split. f_equal. by apply insert_insert_ne.
Qed.

Lemma register_all_run_ops (l : list (K * option C)) m :
  fst (register_all l m) = run_ops ((λ kc, OpRegister kc.1 kc.2) <$> l) m.
Proof.
  revert m. induction l as [|[k c] l IH]; intros m; [done|].
  cbn [register_all fmap list_fmap run_ops fold_left apply_op fst snd].
  destruct (RegisterEventChannel k c m) as [m1 e] eqn:Hr.
  specialize (IH m1). destruct (register_all l m1) as [m2 es].
  cbn [fst] in *. rewrite IH. reflexivity.
Qed.

(** X4. In a run of registrations, a call succeeds exactly when its key
    has no binding in the starting manager and does not occur earlier in
    the run; every other call returns the duplicate-registration error. *)
Theorem register_all_errors (l : list (K * option C)) m i k c :
  l !! i = Some (k, c) →
  (snd (register_all l m) !! i = Some None
     ↔ eventChannels m !! k = None ∧ k ∉ (take i l).*1)
  ∧ (snd (register_all l m) !! i = Some None
     ∨ snd (register_all l m) !! i =
         Some (Some (errors_New "event channel already registered for this event type"))).
Proof.
  revert m i. induction l as [|[k0 c0] l IH]; intros m i Hi; [done|].
  cbn [register_all].
  destruct (RegisterEventChannel k0 c0 m) as [m1 e] eqn:Hr.
  destruct (register_all l m1) as [m2 es] eqn:Hl. cbn [snd].
  destruct i as [|i].
  - injection Hi as -> ->. cbn [lookup list_lookup take fmap list_fmap].
    unfold RegisterEventChannel in Hr.
    destruct (eventChannels m !! k) eqn:Hk; injection Hr as <- <-.
    + split; [|by right]. split; [done|]. by intros [[=] _].
    + split; [|by left]. split; [|done]. intros _. split; [done|]. apply not_elem_of_nil.
  - cbn [lookup list_lookup] in Hi |- *.
    destruct (IH m1 i Hi) as [Hiff Hor]. rewrite Hl in Hiff, Hor. cbn [snd] in Hiff, Hor.
    split; [|exact Hor]. rewrite Hiff.
    cbn [take fmap list_fmap fst]. rewrite not_elem_of_cons.
    unfold RegisterEventChannel in Hr.
    destruct (eventChannels m !! k0) eqn:Hk0; injection Hr as <- <-; cbn [eventChannels].
    + split.
      * intros [Hk Hnot]. split; [done|]. split; [|done]. intros ->. congruence.
      * intros [Hk [_ Hnot]]. done.
    + split.
      * intros [Hk Hnot]. destruct (decide (k0 = k)) as [->|Hne].
        { by rewrite lookup_insert_eq in Hk. }
        rewrite lookup_insert_ne in Hk by done. split; [done|]. split; [congruence|done].
      * intros [Hk [Hne Hnot]]. split; [|done]. rewrite lookup_insert_ne; [done|congruence].
Qed.

(** X5. Registering channels under pairwise different keys on a fresh
    manager: every call succeeds, every key resolves to the channel
    registered under it, and the manager holds as many bindings as there
    were calls. *)
Theorem register_all_distinct (l : list (K * option C)) :
  NoDup l.*1 →
  Forall (λ e, e = None) (snd (register_all l NewOutboxEventManager))
  ∧ (∀ k c, (k, c) ∈ l →
       snd (GetChannel k (fst (register_all l NewOutboxEventManager))) = (c, None))
  ∧ size (eventChannels (fst (register_all l NewOutboxEventManager))) = length l.
Proof.
  intros Hnd.
  assert (∀ m, (∀ k, k ∈ l.*1 → eventChannels m !! k = None) →
      Forall (λ e, e = None) (snd (register_all l m))
      ∧ (∀ k c, (k, c) ∈ l → eventChannels (fst (register_all l m)) !! k = Some c)
      ∧ size (eventChannels (fst (register_all l m)))
        = (size (eventChannels m) + length l)%nat) as Hgen.
  { induction l as [|[k0 c0] l IH]; intros m Hfree.
    - cbn. split; [constructor|]. split; [by intros ?? ?%elem_of_nil|lia].
    - cbn [fmap list_fmap fst] in Hnd. apply NoDup_cons in Hnd as [Hk0 Hnd].
      cbn [register_all]. unfold RegisterEventChannel at 1 2 3.
      rewrite (Hfree k0) by (cbn; left).
      set (m1 := {| ctx := ctx m; eventChannels := <[k0:=c0]> (eventChannels m) |}).
      destruct (IH Hnd m1) as (Herr & Hget & Hsize).
      { intros k Hk. cbn [m1 eventChannels]. rewrite lookup_insert_ne.
        - apply Hfree. cbn. by right.
        - intros ->. done. }
      destruct (register_all l m1) as [m2 es] eqn:Hl. cbn [fst snd] in *.
      split; [by constructor|]. split.
      + intros k c [[= -> ->]|Hin]%elem_of_cons; [|by apply Hget].
        pose proof (register_all_run_ops l m1) as Hrun. rewrite Hl in Hrun.
        cbn [fst] in Hrun. rewrite Hrun.
        apply run_ops_keeps. cbn [m1 eventChannels]. apply lookup_insert_eq.
      + rewrite Hsize. cbn [m1 eventChannels length].
        rewrite map_size_insert_None by (apply Hfree; cbn; left). lia. }
  destruct (Hgen NewOutboxEventManager) as (Herr & Hget & Hsize).
  { intros k _. apply lookup_empty. }
  split; [done|]. split.
  - intros k c Hin. apply GetChannel_bound. by apply Hget.
  - rewrite Hsize. cbn [NewOutboxEventManager eventChannels]. by rewrite map_size_empty.
Qed.

End ManagerRunFacts.

(** ** Runs of the event factory *)

Section EventRunFacts.
Context {T : Type} `{OutboxEventType T} {P : Type}.
Implicit Types (w : World) (reqs : list (T * string * string * P)).

Lemma create_events_cons (r : T * string * string * P) reqs w :
  create_events (r :: reqs) w =
    fst (CreateNewEvent r.1.1.1 r.1.1.2 r.1.2 r.2 w)
      :: create_events reqs
           {| uuid_source := uuid_source w; time_source := time_source w;
              uuid_calls := S (uuid_calls w); time_calls := S (time_calls w) |}.
Proof. by destruct r as [[[et a] b] p]. Qed.

(** X6. What a run of [CreateNewEvent] calls puts into the events besides
    identifier and timestamp is fixed by the arguments alone: one event per
    call, in call order, with the type name, the status ["pending"] and the
    aggregate strings and payload of that call, whatever the world and the
    earlier calls. *)
Theorem create_events_fields reqs w :
  (λ e, (EventType e, EventStatus e, AggregateType e, AggregateID e, Payload e))
    <$> create_events reqs w
  = (λ r, (GetName r.1.1.1, "pending", r.1.1.2, r.1.2, r.2)) <$> reqs.
Proof.
  revert w. induction reqs as [|r reqs IH]; intros w; [done|].
  rewrite create_events_cons, !fmap_cons, IH. reflexivity.
Qed.

Lemma create_events_times reqs w :
  CreatedAt <$> create_events reqs w =
    (λ i, time_source w (time_calls w + i)%nat) <$> seq 0 (length reqs).
Proof.
  revert w. induction reqs as [|r reqs IH]; intros w; [done|].
  rewrite create_events_cons, fmap_cons, IH.
  cbn [length seq fmap list_fmap time_source time_calls CreateNewEvent].
  f_equal; [by rewrite Nat.add_0_r|].
  rewrite <- (fmap_S_seq 0), <- list_fmap_compose.
  apply list_fmap_ext. intros _ i _. simpl. f_equal. lia.
Qed.

(** X7. The timestamps of a run are the clock's readings in call order, one
    reading per call; when the clock never goes back, an event created
    later never carries an earlier timestamp. *)
Theorem create_events_timestamps reqs w :
  CreatedAt <$> create_events reqs w =
    (λ i, time_source w (time_calls w + i)%nat) <$> seq 0 (length reqs)
  ∧ ((∀ i j, (i ≤ j)%nat → (time_source w i ≤ time_source w j)%Z) →
     ∀ i j e1 e2, (i ≤ j)%nat →
       create_events reqs w !! i = Some e1 →
       create_events reqs w !! j = Some e2 →
       (CreatedAt e1 ≤ CreatedAt e2)%Z).
Proof.
  split; [apply create_events_times|].
  intros Hmono i j e1 e2 Hij H1 H2.
  assert ((CreatedAt <$> create_events reqs w) !! i = Some (CreatedAt e1)) as T1
    by (by rewrite list_lookup_fmap, H1).
  assert ((CreatedAt <$> create_events reqs w) !! j = Some (CreatedAt e2)) as T2
    by (by rewrite list_lookup_fmap, H2).
  rewrite create_events_times, list_lookup_fmap in T1, T2.
  destruct (seq 0 (length reqs) !! i) as [i'|] eqn:Si; [|done].
  destruct (seq 0 (length reqs) !! j) as [j'|] eqn:Sj; [|done].
  apply lookup_seq in Si as [-> _]. apply lookup_seq in Sj as [-> _].
  cbn in T1, T2. injection T1 as <-. injection T2 as <-.
  apply Hmono. lia.
Qed.

End EventRunFacts.

(** ** The mock channel and routing through the manager *)

Section RoutingFacts.
Context {K : Type} `{Countable K} {P : Type}.
Implicit Types (m : outboxEventManagerImpl K nat) (h : gmap nat (mockChannel P))
  (k : K) (e : OutboxEvent P) (p : nat).

Lemma route_bound k e m h p ch :
  eventChannels m !! k = Some (Some p) → h !! p = Some ch →
  route k e m h =
    Return (<[p := {| registered := registered ch; events := events ch ++ [e] |}]> h,
            None).
Proof.
  intros Hk Hp. unfold route, GetChannel. rewrite Hk. cbn. by rewrite Hp.
Qed.

(** X8. Routing an event through a key bound to a channel appends the
    event to that channel's events and returns no error; the channel's
    [registered] flag and every other channel in the store stay as they
    are. Routing through a key without a binding, or bound to nil, panics
    on the nil channel. *)
Theorem route_one k e m h :
  (∀ p ch, eventChannels m !! k = Some (Some p) → h !! p = Some ch →
     route k e m h =
       Return (<[p := {| registered := registered ch; events := events ch ++ [e] |}]> h,
               None))
  ∧ (eventChannels m !! k = None → route k e m h = Panics)
  ∧ (eventChannels m !! k = Some None → route k e m h = Panics).
Proof.
  split; [intros p ch; apply route_bound|].
  unfold route, GetChannel. split; intros ->; reflexivity.
Qed.

(** The events a run routes to the channel at address [p]. *)
Lemma route_all_step k e (l : list (K * OutboxEvent P)) m h p ch :
  eventChannels m !! k = Some (Some p) → h !! p = Some ch →
  route_all ((k, e) :: l) m h =
    route_all l m
      (<[p := {| registered := registered ch; events := events ch ++ [e] |}]> h).
Proof.
  intros Hk Hp. cbn [route_all].
  by rewrite (route_bound k e m h p ch Hk Hp).
Qed.

(** X9. When every key of a run of routed events is bound to a channel in
    the store, the run ends without panic and each channel of the store
    holds, after its earlier events, exactly the events routed under the
    keys bound to it, in the order they were routed; events routed under
    keys of other channels never reach it, and no channel appears or
    disappears. *)
Theorem route_all_isolation (l : list (K * OutboxEvent P)) m h :
  (∀ k e, (k, e) ∈ l → ∃ p, eventChannels m !! k = Some (Some p) ∧ is_Some (h !! p)) →
  ∃ h', route_all l m h = Return h'
    ∧ dom h' = dom h
    ∧ ∀ p ch, h !! p = Some ch →
        h' !! p = Some {| registered := registered ch;
                          events := events ch ++
                            (filter (λ ke, eventChannels m !! ke.1 = Some (Some p)) l).*2 |}.
Proof.
  revert h. induction l as [|[k e] l IH]; intros h Hbound.
  - exists h. split; [done|]. split; [done|].
    intros p [r es] Hp. cbn. by rewrite app_nil_r.
  - destruct (Hbound k e) as (p0 & Hk & [ch0 Hp0]); [left|].
    rewrite (route_all_step k e l m h p0 ch0 Hk Hp0).
    set (h1 := <[p0 := _]> h).
    destruct (IH h1) as (h' & Hrun & Hdom & Hev).
    { intros k' e' Hin. destruct (Hbound k' e') as (p & Hk' & Hp); [by right|].
      exists p. split; [done|]. unfold h1. rewrite lookup_insert_is_Some'. by right. }
    exists h'. split; [done|]. split.
    { rewrite Hdom. unfold h1. by apply dom_insert_lookup_L. }
    intros p ch Hp. rewrite filter_cons. cbn [fst].
    destruct (decide (p = p0)) as [->|Hne].
    + assert (ch = ch0) as -> by congruence.
      rewrite decide_True by done.
      rewrite (Hev p0 _ (lookup_insert_eq _ _ _)). cbn [registered events fmap list_fmap snd].
      by rewrite <- app_assoc.
    + rewrite decide_False by congruence.
      apply Hev. unfold h1. by rewrite lookup_insert_ne.
Qed.

End RoutingFacts.

(** ** UTF-8: decoding and encoding are inverse on well-formed sequences *)

Module utf8_facts.
Local Open Scope Z_scope.

Lemma Z_of_byte_range b : 0 ≤ Z_of_byte b ≤ 255.
Proof. unfold Z_of_byte. pose proof (Byte.to_N_bounded b). lia. Qed.

Lemma byte_of_Z_of_byte b : byte_of_Z (Z_of_byte b) = b.
Proof. by destruct b. Qed.

(** Bits that do not overlap add up. *)
Lemma lor_mul_add x y n :
  0 ≤ n → 0 ≤ y < 2 ^ n → Z.lor (x * 2 ^ n) y = x * 2 ^ n + y.
Proof.
  intros Hn Hy. symmetry. apply Z.add_nocarry_lor.
  apply Z.bits_inj'. intros i Hi. rewrite Z.land_spec, Z.bits_0.
  rewrite <- Z.shiftl_mul_pow2 by done. rewrite Z.shiftl_spec by done.
  destruct (Z.lt_ge_cases i n) as [Hlt|Hge].
  - rewrite Z.testbit_neg_r by lia. done.
  - destruct (Z.eq_dec y 0) as [->|Hy0]; [by rewrite Z.bits_0, andb_false_r|].
    rewrite (Z.bits_above_log2 y i), andb_false_r; [done|lia|].
    apply Z.log2_lt_pow2; [lia|].
    apply Z.lt_le_trans with (2 ^ n); [lia|]. by apply Z.pow_le_mono_r.
Qed.

Lemma land_low z n k :
  0 ≤ n → k * 2 ^ n ≤ z < (k + 1) * 2 ^ n → Z.land z (Z.ones n) = z - k * 2 ^ n.
Proof.
  intros Hn Hz. rewrite Z.land_ones by done.
  symmetry. apply Z.mod_unique_pos with k; lia.
Qed.

(** The first byte of each length of sequence in the table [first]. *)
Lemma first_2 z :
  0xC2 ≤ z ≤ 0xDF → utf8.first z = utf8.first_seq 2 0x80 0xBF.
Proof. intros Hz. unfold utf8.first. repeat case_match; lia || done. Qed.

Lemma first_3 z :
  0xE0 ≤ z ≤ 0xEF →
  utf8.first z = utf8.first_seq 3 (if z =? 0xE0 then 0xA0 else 0x80)
                                  (if z =? 0xED then 0x9F else 0xBF).
Proof. intros Hz. unfold utf8.first. repeat case_match; lia || done. Qed.

Lemma first_4 z :
  0xF0 ≤ z ≤ 0xF4 →
  utf8.first z = utf8.first_seq 4 (if z =? 0xF0 then 0x90 else 0x80)
                                  (if z =? 0xF4 then 0x8F else 0xBF).
Proof. intros Hz. unfold utf8.first. repeat case_match; lia || done. Qed.

Lemma first_inv z sz lo hi :
  utf8.first z = utf8.first_seq sz lo hi →
  (sz = 2%nat ∧ 0xC2 ≤ z ≤ 0xDF ∧ lo = 0x80 ∧ hi = 0xBF)
  ∨ (sz = 3%nat ∧ 0xE0 ≤ z ≤ 0xEF
     ∧ lo = (if z =? 0xE0 then 0xA0 else 0x80)
     ∧ hi = (if z =? 0xED then 0x9F else 0xBF))
  ∨ (sz = 4%nat ∧ 0xF0 ≤ z ≤ 0xF4
     ∧ lo = (if z =? 0xF0 then 0x90 else 0x80)
     ∧ hi = (if z =? 0xF4 then 0x8F else 0xBF)).
Proof.
  unfold utf8.first.
  repeat (case_match; try discriminate); intros [= <- <- <-];
    repeat match goal with H : (_ <? _) = _ |- _ => apply Z.ltb_ge in H || apply Z.ltb_lt in H
                      | H : (_ =? _) = _ |- _ => apply Z.eqb_eq in H || apply Z.eqb_neq in H end;
    first [ left; repeat split; lia
          | right; left; repeat split; try lia; repeat case_match; lia
          | right; right; repeat split; try lia; repeat case_match; lia ].
Qed.

(** The masks of [DecodeRune] on bytes in range. *)
Lemma mask_cont b : is_cont b → Z.land (Z_of_byte b) 0x3F = Z_of_byte b - 0x80.
Proof. intros Hb. apply (land_low _ 6 2); [lia|]. unfold is_cont in Hb. lia. Qed.

Lemma mask_2 z : 0xC2 ≤ z ≤ 0xDF → Z.land z 0x1F = z - 0xC0.
Proof. intros Hz. apply (land_low _ 5 6); lia. Qed.

Lemma mask_3 z : 0xE0 ≤ z ≤ 0xEF → Z.land z 0x0F = z - 0xE0.
Proof. intros Hz. apply (land_low _ 4 14); lia. Qed.

Lemma mask_4 z : 0xF0 ≤ z ≤ 0xF4 → Z.land z 0x07 = z - 0xF0.
Proof. intros Hz. apply (land_low _ 3 30); lia. Qed.

(** [DecodeRune] reads a well-formed sequence, whatever follows it. *)
Lemma DecodeRune_seq s c q :
  utf8_seq s c → utf8.DecodeRune (s ++ q) = (c, length s).
Proof.
  intros Hs. destruct Hs as [p0 b1 H0 H1|p0 b1 b2 H0 H1 H2 Hlo Hhi
                            |p0 b1 b2 b3 H0 H1 H2 H3 Hlo Hhi];
    unfold is_cont in *; cbn [app utf8.DecodeRune length].
  - rewrite first_2 by done.
    replace ((_ <? 2)%nat) with false by (symmetry; apply Nat.ltb_ge; lia).
    replace (_ || _) with false by (symmetry; apply orb_false_iff; lia).
    cbn [Nat.leb]. f_equal.
    rewrite mask_2, mask_cont by done.
    rewrite Z.shiftl_mul_pow2 by lia. apply (lor_mul_add _ _ 6); lia.
  - rewrite first_3 by done.
    replace ((_ <? 3)%nat) with false by (symmetry; apply Nat.ltb_ge; lia).
    replace (_ || _) with false
      by (symmetry; apply orb_false_iff; repeat case_match; lia).
    cbn [Nat.leb].
    replace (_ || _) with false by (symmetry; apply orb_false_iff; lia).
    f_equal.
    rewrite mask_3, !mask_cont by done.
    rewrite !Z.shiftl_mul_pow2 by lia.
    rewrite (lor_mul_add _ _ 12) by lia.
    replace ((Z_of_byte p0 - 224) * 2 ^ 12 + (Z_of_byte b1 - 128) * 2 ^ 6)
      with (((Z_of_byte p0 - 224) * 64 + (Z_of_byte b1 - 128)) * 2 ^ 6) by lia.
    rewrite (lor_mul_add _ _ 6) by lia. lia.
  - rewrite first_4 by done.
    replace ((_ <? 4)%nat) with false by (symmetry; apply Nat.ltb_ge; lia).
    replace (_ || _) with false
      by (symmetry; apply orb_false_iff; repeat case_match; lia).
    cbn [Nat.leb].
    replace (_ || _) with false by (symmetry; apply orb_false_iff; lia).
    replace (_ || _) with false by (symmetry; apply orb_false_iff; lia).
    f_equal.
    rewrite mask_4, !mask_cont by done.
    rewrite !Z.shiftl_mul_pow2 by lia.
    rewrite (lor_mul_add _ _ 18) by lia.
    replace ((Z_of_byte p0 - 240) * 2 ^ 18 + (Z_of_byte b1 - 128) * 2 ^ 12)
      with (((Z_of_byte p0 - 240) * 64 + (Z_of_byte b1 - 128)) * 2 ^ 12) by lia.
    rewrite (lor_mul_add _ _ 12) by lia.
    replace (((Z_of_byte p0 - 240) * 64 + (Z_of_byte b1 - 128)) * 2 ^ 12
             + (Z_of_byte b2 - 128) * 2 ^ 6)
      with ((((Z_of_byte p0 - 240) * 64 + (Z_of_byte b1 - 128)) * 64
             + (Z_of_byte b2 - 128)) * 2 ^ 6) by lia.
    rewrite (lor_mul_add _ _ 6) by lia. lia.
Qed.

Lemma first_as_inv z : utf8.first z = utf8.first_as → z < 0x80.
Proof.
  unfold utf8.first. destruct (Z.ltb_spec z 0x80); [done|].
  repeat case_match; discriminate.
Qed.

(** What [DecodeRune] returns at a byte outside ASCII: an encoding error of
    width 1, or the code point of a well-formed sequence and its length. *)
Lemma DecodeRune_inv p0 r c size :
  utf8.DecodeRune (p0 :: r) = (c, size) → 0x80 ≤ Z_of_byte p0 →
  (c = utf8.RuneError ∧ size = 1%nat)
  ∨ ∃ s q, p0 :: r = s ++ q ∧ utf8_seq s c ∧ size = length s.
Proof.
  intros H Hz. pose proof H as H'. unfold utf8.DecodeRune in H'.
  destruct (utf8.first (Z_of_byte p0)) as [| |sz lo hi] eqn:Hf.
  { apply first_as_inv in Hf. lia. }
  { injection H' as <- <-. by left. }
  destruct r as [|b1 r]; [injection H' as <- <-; by left|].
  destruct (_ <? _)%nat eqn:Hlen; [injection H' as <- <-; by left|].
  destruct (_ || _) eqn:Hb1; [injection H' as <- <-; by left|].
  apply orb_false_iff in Hb1 as [Hb1lo Hb1hi].
  apply Z.ltb_ge in Hb1lo, Hb1hi.
  apply first_inv in Hf as [(-> & H0 & -> & ->)|[(-> & H0 & -> & ->)|(-> & H0 & -> & ->)]];
    cbn [Nat.leb] in H'.
  - right. clear H'.
    assert (utf8_seq [p0; b1] ((Z_of_byte p0 - 0xC0) * 64 + (Z_of_byte b1 - 0x80))) as Hs
      by (constructor; unfold is_cont; lia).
    change (p0 :: b1 :: r) with ([p0; b1] ++ r) in H.
    rewrite (DecodeRune_seq _ _ r Hs) in H. injection H as <- <-.
    by exists [p0; b1], r.
  - destruct r as [|b2 r]; [injection H' as <- <-; by left|].
    destruct (_ || _) eqn:Hb2; [injection H' as <- <-; by left|].
    apply orb_false_iff in Hb2 as [Hb2lo Hb2hi]. apply Z.ltb_ge in Hb2lo, Hb2hi.
    right. clear H'.
    assert (utf8_seq [p0; b1; b2]
              ((Z_of_byte p0 - 0xE0) * 4096 + (Z_of_byte b1 - 0x80) * 64
               + (Z_of_byte b2 - 0x80))) as Hs.
    { constructor; unfold is_cont; repeat case_match; lia. }
    change (p0 :: b1 :: b2 :: r) with ([p0; b1; b2] ++ r) in H.
    rewrite (DecodeRune_seq _ _ r Hs) in H. injection H as <- <-.
    by exists [p0; b1; b2], r.
  - destruct r as [|b2 r]; [injection H' as <- <-; by left|].
    destruct (_ || _) eqn:Hb2; [injection H' as <- <-; by left|].
    apply orb_false_iff in Hb2 as [Hb2lo Hb2hi]. apply Z.ltb_ge in Hb2lo, Hb2hi.
    destruct r as [|b3 r]; [injection H' as <- <-; by left|].
    destruct (_ || _) eqn:Hb3; [injection H' as <- <-; by left|].
    apply orb_false_iff in Hb3 as [Hb3lo Hb3hi]. apply Z.ltb_ge in Hb3lo, Hb3hi.
    right. clear H'.
    assert (utf8_seq [p0; b1; b2; b3]
              ((Z_of_byte p0 - 0xF0) * 262144 + (Z_of_byte b1 - 0x80) * 4096
               + (Z_of_byte b2 - 0x80) * 64 + (Z_of_byte b3 - 0x80))) as Hs.
    { constructor; unfold is_cont; repeat case_match; lia. }
    change (p0 :: b1 :: b2 :: b3 :: r) with ([p0; b1; b2; b3] ++ r) in H.
    rewrite (DecodeRune_seq _ _ r Hs) in H. injection H as <- <-.
    by exists [p0; b1; b2; b3], r.
Qed.

(** Taking a number apart again. *)
Lemma shiftr_high x y n :
  0 ≤ n → 0 ≤ y < 2 ^ n → Z.shiftr (x * 2 ^ n + y) n = x.
Proof.
  intros Hn Hy. rewrite Z.shiftr_div_pow2 by done.
  symmetry. apply Z.div_unique with y; lia.
Qed.

Lemma land_low_add x y n :
  0 ≤ n → 0 ≤ y < 2 ^ n → Z.land (x * 2 ^ n + y) (Z.ones n) = y.
Proof. intros Hn Hy. rewrite (land_low _ n x); lia. Qed.

Lemma lead_byte k n b :
  0 ≤ n → k * 2 ^ n ≤ Z_of_byte b < (k + 1) * 2 ^ n →
  byte_of_Z (Z.lor (k * 2 ^ n) (Z_of_byte b - k * 2 ^ n)) = b.
Proof.
  intros Hn Hb. rewrite lor_mul_add by lia.
  replace (k * 2 ^ n + (Z_of_byte b - k * 2 ^ n)) with (Z_of_byte b) by lia.
  apply byte_of_Z_of_byte.
Qed.

(** [EncodeRune] writes the sequence a code point was decoded from. *)
Lemma EncodeRune_seq s c : utf8_seq s c → utf8.EncodeRune c = s.
Proof.
  intros Hs. destruct Hs as [p0 b1 H0 H1|p0 b1 b2 H0 H1 H2 Hlo Hhi
                            |p0 b1 b2 b3 H0 H1 H2 H3 Hlo Hhi];
    unfold is_cont in *; unfold utf8.EncodeRune, utf8.encode3, utf8.MaxRune.
  - set (a := Z_of_byte p0 - 0xC0). set (y := Z_of_byte b1 - 0x80).
    replace (_ && _) with false by (symmetry; apply andb_false_iff; lia).
    replace (_ && _) with true by (symmetry; apply andb_true_iff; lia).
    change (a * 64 + y) with (a * 2 ^ 6 + y).
    rewrite shiftr_high by lia. change 0x3F with (Z.ones 6).
    rewrite land_low_add by lia.
    f_equal; [apply (lead_byte 6 5); lia|].
    f_equal. apply (lead_byte 2 6); lia.
  - set (a := Z_of_byte p0 - 0xE0). set (b := Z_of_byte b1 - 0x80).
    set (d := Z_of_byte b2 - 0x80).
    assert (0x800 ≤ a * 4096 + b * 64 + d ≤ 0xFFFF
            ∧ ¬ (0xD800 ≤ a * 4096 + b * 64 + d ≤ 0xDFFF)) as [Hr Hsur].
    { assert (a = 0 → 32 ≤ b) by lia. assert (a = 13 → b ≤ 31) by lia. lia. }
    replace (_ && _) with false by (symmetry; apply andb_false_iff; lia).
    replace (_ && _) with false by (symmetry; apply andb_false_iff; lia).
    replace (_ || _) with false.
    2:{ symmetry. rewrite !orb_false_iff, andb_false_iff. lia. }
    replace (_ <=? _) with true by (symmetry; apply Z.leb_le; lia).
    replace (a * 4096 + b * 64 + d) with ((a * 64 + b) * 2 ^ 6 + d) by lia.
    change 0x3F with (Z.ones 6). rewrite (land_low_add _ d 6) by lia.
    rewrite (shiftr_high _ d 6) by lia.
    change (a * 64 + b) with (a * 2 ^ 6 + b). rewrite (land_low_add a b 6) by lia.
    replace ((a * 2 ^ 6 + b) * 2 ^ 6 + d) with (a * 2 ^ 12 + (b * 64 + d)) by lia.
    rewrite (shiftr_high a _ 12) by lia.
    f_equal; [apply (lead_byte 14 4); lia|].
    f_equal; [apply (lead_byte 2 6); lia|].
    f_equal. apply (lead_byte 2 6); lia.
  - set (a := Z_of_byte p0 - 0xF0). set (b := Z_of_byte b1 - 0x80).
    set (d := Z_of_byte b2 - 0x80). set (e := Z_of_byte b3 - 0x80).
    assert (0x10000 ≤ a * 262144 + b * 4096 + d * 64 + e ≤ 0x10FFFF) as Hr.
    { assert (a = 0 → 16 ≤ b) by lia. assert (a = 4 → b ≤ 15) by lia. lia. }
    replace (_ && _) with false by (symmetry; apply andb_false_iff; lia).
    replace (_ && _) with false by (symmetry; apply andb_false_iff; lia).
    replace (_ || _) with false.
    2:{ symmetry. rewrite !orb_false_iff, andb_false_iff. lia. }
    replace (_ <=? _) with false by (symmetry; apply Z.leb_gt; lia).
    replace (a * 262144 + b * 4096 + d * 64 + e)
      with (((a * 64 + b) * 64 + d) * 2 ^ 6 + e) by lia.
    change 0x3F with (Z.ones 6). rewrite (land_low_add _ e 6) by lia.
    rewrite (shiftr_high _ e 6) by lia.
    change ((a * 64 + b) * 64 + d) with ((a * 64 + b) * 2 ^ 6 + d).
    rewrite (land_low_add _ d 6) by lia.
    replace (((a * 64 + b) * 2 ^ 6 + d) * 2 ^ 6 + e)
      with ((a * 2 ^ 6 + b) * 2 ^ 12 + (d * 64 + e)) by lia.
    rewrite (shiftr_high _ _ 12) by lia.
    rewrite (land_low_add a b 6) by lia.
    replace ((a * 2 ^ 6 + b) * 2 ^ 12 + (d * 64 + e))
      with (a * 2 ^ 18 + (b * 4096 + d * 64 + e)) by lia.
    rewrite (shiftr_high a _ 18) by lia.
    f_equal; [apply (lead_byte 30 3); lia|].
    f_equal; [apply (lead_byte 2 6); lia|].
    f_equal; [apply (lead_byte 2 6); lia|].
    f_equal. apply (lead_byte 2 6); lia.
Qed.
End utf8_facts.

(** ** The round trip of a status through JSON *)

Module roundtrip_facts.
Import json.
Local Open Scope byte_scope.
Local Open Scope Z_scope.

Lemma wellFormed_loop_skip k p :
  wellFormed_loop k p = wellFormed_loop 0 (skipn k p).
Proof.
  revert k. induction p as [|c p IH]; intros [|k]; try reflexivity.
  cbn [wellFormed_loop skipn]. apply IH.
Qed.

Lemma coerce_loop_skip k p : coerce_loop k p = coerce_loop 0 (skipn k p).
Proof.
  revert k. induction p as [|c p IH]; intros [|k]; try reflexivity.
  cbn [coerce_loop skipn]. apply IH.
Qed.

Lemma utf8_seq_cons s c :
  utf8_seq s c →
  ∃ p0 s', s = p0 :: s' ∧ 0xC2 ≤ Z_of_byte p0 ∧ (1 ≤ length s' ≤ 3)%nat.
Proof. destruct 1; eexists _, _; (split; [done|]); cbn; lia. Qed.

Lemma DecodeRune_ascii b p :
  (Z_of_byte b <? 0x80) = true → utf8.DecodeRune (b :: p) = (Z_of_byte b, 1%nat).
Proof.
  intros Hb. unfold utf8.DecodeRune, utf8.first. by rewrite Hb.
Qed.

(** [appendString] hands [DecodeRune] at most four bytes, which is all it
    reads. *)
Lemma DecodeRune_firstn4 p : utf8.DecodeRune (firstn 4 p) = utf8.DecodeRune p.
Proof.
  destruct p as [|p0 r]; [done|].
  destruct (Z_of_byte p0 <? 0x80) eqn:Hb.
  { cbn [firstn]. by rewrite !DecodeRune_ascii. }
  apply Z.ltb_ge in Hb.
  destruct (utf8.DecodeRune (firstn 4 (p0 :: r))) as [c size] eqn:H4.
  destruct (utf8.DecodeRune (p0 :: r)) as [c' size'] eqn:Hp.
  pose proof H4 as H4'. pose proof Hp as Hp'.
  cbn [firstn] in H4'. apply utf8_facts.DecodeRune_inv in H4', Hp'; try done.
  destruct H4' as [[-> ->]|(s & q & Heq & Hs & ->)].
  - destruct Hp' as [[-> ->]|(s & q & Heq & Hs & ->)]; [done|].
    destruct (utf8_seq_cons _ _ Hs) as (x & s' & -> & _ & Hlen).
    exfalso. revert H4. rewrite Heq, take_app.
    rewrite (firstn_all2 (x :: s')) by (cbn; lia).
    rewrite (utf8_facts.DecodeRune_seq _ _ _ Hs). intros [= _ Hsz]. cbn in Hsz. lia.
  - assert (p0 :: r = s ++ (q ++ skipn 4 (p0 :: r))) as Hall.
    { rewrite app_assoc, <- Heq. change (drop 4 (p0 :: r)) with (drop 3 r).
      cbn [app]. f_equal. symmetry. apply take_drop. }
    rewrite Hall, (utf8_facts.DecodeRune_seq _ _ _ Hs) in Hp. by injection Hp as <- <-.
Qed.

(** An ASCII byte goes out as itself or as an escape and comes back as
    itself. *)
Lemma roundtrip_ascii b src :
  (Z_of_byte b <? 0x80) = true →
  unquote_loop 0 (appendString_loop 0 (b :: src))
    = cons b <$> unquote_loop 0 (appendString_loop 0 src).
Proof. intros Hb. destruct b; try discriminate; reflexivity. Qed.

Lemma coerce_loop_ascii b p :
  (Z_of_byte b <? 0x80) = true → coerce_loop 0 (b :: p) = b :: coerce_loop 0 p.
Proof.
  intros Hb. cbn [coerce_loop]. rewrite DecodeRune_ascii by done.
  replace (Z_of_byte b =? utf8.RuneError) with false; [done|].
  symmetry. apply Z.eqb_neq. apply Z.ltb_lt in Hb. unfold utf8.RuneError. lia.
Qed.

Lemma wellFormed_loop_ascii b p :
  (Z_of_byte b <? 0x80) = true → wellFormed_loop 0 (b :: p) = wellFormed_loop 0 p.
Proof.
  intros Hb. cbn [wellFormed_loop]. rewrite DecodeRune_ascii by done.
  replace (Z_of_byte b =? utf8.RuneError) with false; [done|].
  symmetry. apply Z.eqb_neq. apply Z.ltb_lt in Hb. unfold utf8.RuneError. lia.
Qed.

(** The three ways a byte outside ASCII is read. *)
Lemma nonascii_cases b src :
  (Z_of_byte b <? 0x80) = false →
  (utf8.DecodeRune (b :: src) = (utf8.RuneError, 1%nat))
  ∨ ∃ s' q c, src = s' ++ q ∧ utf8_seq (b :: s') c
              ∧ utf8.DecodeRune (b :: src) = (c, S (length s')).
Proof.
  intros Hb%Z.ltb_ge.
  destruct (utf8.DecodeRune (b :: src)) as [c size] eqn:Hd.
  apply utf8_facts.DecodeRune_inv in Hd as [[-> ->]|(s & q & Heq & Hs & ->)];
    [by left| |done].
  right. destruct (utf8_seq_cons _ _ Hs) as (x & s' & -> & _ & _).
  injection Heq as <- ->. by exists s', q, c.
Qed.

Lemma utf8_seq_not_error_width s c :
  utf8_seq s c → ((c =? utf8.RuneError) && (length s =? 1)%nat) = false.
Proof. destruct 1; cbn [length Nat.eqb]; apply andb_false_r. Qed.

(** What comes back from the JSON text of a byte string: the string with
    every byte that is not part of well-formed UTF-8 replaced by U+FFFD. *)
Lemma roundtrip_loop n :
  ∀ src, (length src < n)%nat →
    unquote_loop 0 (appendString_loop 0 src) = Some (coerce_loop 0 src).
Proof.
  induction n as [|n IH]; intros src Hlen; [lia|].
  destruct src as [|b src]; [done|]. cbn [length] in Hlen.
  destruct (Z_of_byte b <? 0x80) eqn:Hb.
  { rewrite roundtrip_ascii, coerce_loop_ascii, IH by (done || lia). done. }
  cbn [appendString_loop coerce_loop]. unfold utf8.RuneSelf. rewrite Hb.
  rewrite DecodeRune_firstn4.
  destruct (nonascii_cases b src Hb) as [->|(s' & q & c & -> & Hs & ->)].
  - change ((utf8.RuneError =? utf8.RuneError) && (1 =? 1)%nat) with true. cbv iota.
    rewrite decode_facts.unquote_loop_u.
    change (getu4 ("\" :: "u" :: "f" :: "f" :: "f" :: "d" :: appendString_loop 0 src))
      with 0xFFFD.
    cbv zeta. change (0xFFFD <? 0) with false. change (utf16.IsSurrogate 0xFFFD) with false.
    cbv iota. by rewrite IH by lia.
  - change (S (length s')) with (length (b :: s')).
    rewrite (utf8_seq_not_error_width _ _ Hs). cbn [length Nat.sub].
    rewrite Nat.sub_0_r, decode_facts.appendString_loop_skip, coerce_loop_skip, !drop_app_length.
    rewrite length_app in Hlen.
    change (firstn (S (length s')) (b :: s' ++ q)) with (b :: firstn (length s') (s' ++ q)).
    rewrite take_app_length.
    destruct ((c =? 0x2028) || (c =? 0x2029)) eqn:Hc.
    + rewrite decode_facts.unquote_loop_u.
      assert (getu4 ("\" :: "u" :: "2" :: "0" :: "2" :: hex (Z.land c 0xF)
                       :: appendString_loop 0 q) = c) as ->
        by (apply orb_true_iff in Hc as [->%Z.eqb_eq| ->%Z.eqb_eq]; reflexivity).
      cbv zeta.
      assert ((c <? 0) = false ∧ utf16.IsSurrogate c = false) as [-> ->]
        by (apply orb_true_iff in Hc as [->%Z.eqb_eq| ->%Z.eqb_eq]; done).
      rewrite IH by lia. cbn [fmap option_fmap option_map].
      by rewrite (utf8_facts.EncodeRune_seq _ _ Hs).
    + cbn [app]. rewrite decode_facts.unquote_loop_unescaped.
      2:{ apply decode_facts.nonASCII_isUnescaped. unfold nonASCII.
          by apply Z.ltb_ge in Hb. }
      unfold utf8.RuneSelf. rewrite Hb.
      change (b :: s' ++ appendString_loop 0 q) with ((b :: s') ++ appendString_loop 0 q).
      rewrite (utf8_facts.DecodeRune_seq _ _ _ Hs). cbn [fst snd length Nat.sub].
      rewrite Nat.sub_0_r, decode_facts.unquote_loop_skip, drop_app_length.
      rewrite IH by lia. cbn [fmap option_fmap option_map].
      by rewrite (utf8_facts.EncodeRune_seq _ _ Hs).
Qed.

(** Coercion keeps well-formed strings and lengthens the others. *)
Lemma coerce_loop_length n :
  ∀ p, (length p < n)%nat →
    (wellFormed_loop 0 p = true → coerce_loop 0 p = p)
    ∧ (wellFormed_loop 0 p = false → (length p < length (coerce_loop 0 p))%nat)
    ∧ (length p ≤ length (coerce_loop 0 p))%nat.
Proof.
  induction n as [|n IH]; intros p Hlen; [lia|].
  destruct p as [|b p]; [by repeat split|]. cbn [length] in Hlen.
  destruct (Z_of_byte b <? 0x80) eqn:Hb.
  { rewrite wellFormed_loop_ascii, coerce_loop_ascii by done.
    destruct (IH p) as (Hwf & Hill & Hle); [lia|]. cbn [length].
    split; [intros ?; f_equal; auto|]. split; [intros ?%Hill; lia|lia]. }
  cbn [wellFormed_loop coerce_loop].
  destruct (nonascii_cases b p Hb) as [->|(s' & q & c & -> & Hs & ->)].
  - change ((utf8.RuneError =? utf8.RuneError) && (1 =? 1)%nat) with true. cbv iota.
    destruct (IH p) as (_ & _ & Hle); [lia|].
    split; [done|]. rewrite length_app. cbn. split; [intros _|]; lia.
  - change (S (length s')) with (length (b :: s')).
    rewrite (utf8_seq_not_error_width _ _ Hs). cbn [length Nat.sub].
    rewrite Nat.sub_0_r, wellFormed_loop_skip, coerce_loop_skip, !drop_app_length.
    change (firstn (S (length s')) (b :: s' ++ q)) with (b :: firstn (length s') (s' ++ q)).
    rewrite take_app_length. rewrite length_app in Hlen.
    destruct (IH q) as (Hwf & Hill & Hle); [lia|].
    cbn [app length]. rewrite !length_app.
    split; [intros ?; do 2 f_equal; auto|]. split; [intros ?%Hill; lia|lia].
Qed.

Lemma coerce_loop_fixed p : coerce_loop 0 p = p ↔ wellFormed_loop 0 p = true.
Proof.
  destruct (coerce_loop_length (S (length p)) p) as (Hwf & Hill & _); [lia|].
  split; [|done]. intros Heq.
  destruct (wellFormed_loop 0 p); [done|].
  specialize (Hill eq_refl). rewrite Heq in Hill. lia.
Qed.
End roundtrip_facts.

Lemma UnmarshalJSON_MarshalJSON n s :
  UnmarshalJSON n (fst (MarshalJSON s)) = Return (coerceUTF8 s, None).
Proof.
  set (src := list_byte_of_string s).
  assert (JSONStringOf (json.appendString_loop 0 src) (fst (MarshalJSON s))) as Hstr.
  { exists [], []. repeat split; try constructor.
    apply (decode_facts.appendString_loop_chars (S (length src))). lia. }
  destruct (UnmarshalJSON_string n _ _ Hstr) as (t & Ht & ->).
  rewrite (roundtrip_facts.roundtrip_loop (S (length src))) in Ht by lia.
  by injection Ht as <-.
Qed.

(** X10. Marshaling a status and unmarshaling the result always succeeds,
    and gives back the status with every byte that is not part of
    well-formed UTF-8 replaced by the three bytes of U+FFFD, whatever the
    status held before. *)
Theorem status_roundtrip_coerces n s :
  snd (MarshalJSON s) = None
  ∧ UnmarshalJSON n (fst (MarshalJSON s)) = Return (coerceUTF8 s, None).
Proof. split; [done|apply UnmarshalJSON_MarshalJSON]. Qed.

(** X11. The round trip through [MarshalJSON] and [UnmarshalJSON] gives the
    status back unchanged exactly when the status is well-formed UTF-8. *)
Theorem status_roundtrip_iff n s :
  UnmarshalJSON n (fst (MarshalJSON s)) = Return (s, None)
  ↔ wellFormedUTF8 s = true.
Proof.
  rewrite UnmarshalJSON_MarshalJSON. unfold coerceUTF8, wellFormedUTF8.
  rewrite <- roundtrip_facts.coerce_loop_fixed. split.
  - intros [= Heq]. rewrite <- Heq at 2.
    by rewrite list_byte_of_string_of_list_byte.
  - intros ->. by rewrite string_of_list_byte_of_string.
Qed.

(** ** What [MarshalJSON] writes *)

Module encode_facts.
Import json.
Local Open Scope byte_scope.
Local Open Scope Z_scope.

Lemma clean_ascii b src :
  (Z_of_byte b <? 0x80) = true →
  clean (appendString_loop 0 src) → clean (appendString_loop 0 (b :: src)).
Proof. intros Hb Hsrc. destruct b; try discriminate; exact Hsrc. Qed.

Lemma nonASCII_isHTMLSafe b : (Z_of_byte b <? 0x80) = false → isHTMLSafe b = true.
Proof. by destruct b. Qed.

Lemma clean_seq s c l : utf8_seq s c → clean l → clean (s ++ l).
Proof.
  intros Hs [Hwf Hsafe]. split.
  - destruct (roundtrip_facts.utf8_seq_cons _ _ Hs) as (b & s' & -> & _ & _).
    cbn [app wellFormed_loop].
    change (b :: s' ++ l) with ((b :: s') ++ l).
    rewrite (utf8_facts.DecodeRune_seq _ _ _ Hs).
    rewrite (roundtrip_facts.utf8_seq_not_error_width _ _ Hs). cbn [length Nat.sub].
    by rewrite Nat.sub_0_r, roundtrip_facts.wellFormed_loop_skip, drop_app_length.
  - rewrite forallb_app, Hsafe, andb_true_r.
    apply forallb_forall. intros x Hx. apply nonASCII_isHTMLSafe, Z.ltb_ge.
    destruct Hs; unfold is_cont in *; cbn in Hx; intuition (subst; lia).
Qed.

Lemma appendString_loop_clean n :
  ∀ src, (length src < n)%nat → clean (appendString_loop 0 src).
Proof.
  induction n as [|n IH]; intros src Hlen; [lia|].
  destruct src as [|b src]; [done|]. cbn [length] in Hlen.
  destruct (Z_of_byte b <? 0x80) eqn:Hb.
  { apply clean_ascii; [done|]. apply IH. lia. }
  cbn [appendString_loop]. unfold utf8.RuneSelf. rewrite Hb.
  rewrite roundtrip_facts.DecodeRune_firstn4.
  destruct (roundtrip_facts.nonascii_cases b src Hb) as [->|(s' & q & c & -> & Hs & ->)].
  - change ((utf8.RuneError =? utf8.RuneError) && (1 =? 1)%nat) with true. cbv iota.
    exact (IH src ltac:(lia)).
  - change (S (length s')) with (length (b :: s')).
    rewrite (roundtrip_facts.utf8_seq_not_error_width _ _ Hs). cbn [length Nat.sub].
    rewrite Nat.sub_0_r, decode_facts.appendString_loop_skip, drop_app_length.
    rewrite length_app in Hlen.
    change (firstn (S (length s')) (b :: s' ++ q)) with (b :: firstn (length s') (s' ++ q)).
    rewrite take_app_length.
    destruct ((c =? 0x2028) || (c =? 0x2029)) eqn:Hc.
    + apply orb_true_iff in Hc as [->%Z.eqb_eq| ->%Z.eqb_eq]; exact (IH q ltac:(lia)).
    + apply (clean_seq (b :: s') c); [done|]. apply IH. lia.
Qed.

Lemma wellFormed_loop_app l1 l2 :
  wellFormed_loop 0 l1 = true → wellFormed_loop 0 (l1 ++ l2) = wellFormed_loop 0 l2.
Proof.
  remember (S (length l1)) as n eqn:Hn.
  assert (length l1 < n)%nat as Hlen by lia. clear Hn.
  revert l1 Hlen. induction n as [|n IH]; intros l1 Hlen Hwf; [lia|].
  destruct l1 as [|b l1]; [done|]. cbn [length] in Hlen.
  destruct (Z_of_byte b <? 0x80) eqn:Hb.
  { cbn [app]. rewrite roundtrip_facts.wellFormed_loop_ascii in Hwf |- * by done.
    apply IH; [lia|done]. }
  destruct (roundtrip_facts.nonascii_cases b l1 Hb) as [Hd|(s' & q & c & -> & Hs & Hd)].
  { cbn [wellFormed_loop] in Hwf. rewrite Hd in Hwf.
    change ((utf8.RuneError =? utf8.RuneError) && (1 =? 1)%nat) with true in Hwf.
    discriminate Hwf. }
  cbn [wellFormed_loop] in Hwf. rewrite Hd in Hwf.
  change (S (length s')) with (length (b :: s')) in Hwf.
  rewrite (roundtrip_facts.utf8_seq_not_error_width _ _ Hs) in Hwf.
  cbn [length Nat.sub] in Hwf.
  rewrite Nat.sub_0_r, roundtrip_facts.wellFormed_loop_skip, drop_app_length in Hwf.
  cbn [app]. rewrite <- app_assoc. cbn [wellFormed_loop].
  change (b :: s' ++ q ++ l2) with ((b :: s') ++ (q ++ l2)).
  rewrite (utf8_facts.DecodeRune_seq _ _ _ Hs).
  rewrite (roundtrip_facts.utf8_seq_not_error_width _ _ Hs). cbn [length Nat.sub].
  rewrite Nat.sub_0_r, roundtrip_facts.wellFormed_loop_skip, drop_app_length.
  rewrite length_app in Hlen. apply IH; [lia|exact Hwf].
Qed.

(** Bytes the encoder does not escape are written as they are. *)
Lemma appendString_loop_verbatim src :
  forallb (λ b, (Z_of_byte b <? utf8.RuneSelf) && htmlSafeSet b) src = true →
  appendString_loop 0 src = src.
Proof.
  induction src as [|b src IH]; [done|].
  cbn [forallb]. intros [[Hb Hsafe]%andb_true_iff Hsrc]%andb_true_iff.
  cbn [appendString_loop]. rewrite Hb, Hsafe. by rewrite IH.
Qed.
End encode_facts.

(** C9. [MarshalJSON] returns no error for any status value, enumerant or
    not, and its output is the JSON string encoding of the string
    [String()] returns, which is the status's own string: a literal
    between quotes whose contents are characters and escapes of a JSON
    string and decode, by the JSON decoder, to that string (with each byte
    that is not part of well-formed UTF-8 replaced by U+FFFD, hence to
    the string itself when it is well-formed UTF-8). A status of ASCII
    bytes that the encoder does not escape is written between the quotes
    as it is. *)
Theorem MarshalJSON_total (n : OutboxEventStatus) :
  snd (MarshalJSON n) = None
  ∧ MarshalJSON n = json.Marshal_string (OutboxEventStatus_String n)
  ∧ OutboxEventStatus_String n = n
  ∧ (∃ body, fst (MarshalJSON n) = x22 :: body ++ [x22] ∧ JSONChars body
       ∧ json.unquote_loop 0 body = Some (coerce_loop 0 (list_byte_of_string n)))
  ∧ (∀ v, json.Unmarshal_string (fst (MarshalJSON n)) v = Return (coerceUTF8 n, None))
  ∧ (wellFormedUTF8 n = true → coerceUTF8 n = n)
  ∧ (forallb (λ b, (Z_of_byte b <? utf8.RuneSelf)%Z && json.htmlSafeSet b)
       (list_byte_of_string n) = true →
     fst (MarshalJSON n) = quoted n).
Proof.
  set (src := list_byte_of_string n).
  assert (JSONChars (json.appendString_loop 0 src)) as Hchars
    by (apply (decode_facts.appendString_loop_chars (S (length src))); lia).
  assert (json.unquote_loop 0 (json.appendString_loop 0 src) = Some (coerce_loop 0 src))
    as Hdec by (apply (roundtrip_facts.roundtrip_loop (S (length src))); lia).
  split; [done|]. split; [done|]. split; [done|]. split.
  { by exists (json.appendString_loop 0 src). }
  split.
  { intros v.
    assert (JSONStringOf (json.appendString_loop 0 src) (fst (MarshalJSON n))) as Hstr
      by (exists [], []; repeat split; try constructor; done).
    destruct (decode_facts.Unmarshal_string_string _ _ v Hstr) as (t & Ht & ->).
    rewrite Hdec in Ht. by injection Ht as <-. }
  split.
  { unfold wellFormedUTF8, coerceUTF8. fold src.
    intros ->%roundtrip_facts.coerce_loop_fixed.
    apply string_of_list_byte_of_string. }
  intros Hplain. cbn [MarshalJSON json.Marshal_string fst].
  unfold json.appendString, quoted, OutboxEventStatus_String. fold src.
  by rewrite encode_facts.appendString_loop_verbatim.
Qed.

Lemma MarshalJSON_total_witness :
  fst (MarshalJSON "shipped") = quoted "shipped"
  ∧ coerceUTF8 "shipped" = "shipped".
Proof.
  split.
  - apply (proj2 (proj2 (proj2 (proj2 (proj2 (proj2 (MarshalJSON_total "shipped")))))));
      reflexivity.
  - apply (proj1 (proj2 (proj2 (proj2 (proj2 (proj2 (MarshalJSON_total "shipped")))))));
      reflexivity.
Defined.

(** X12. Whatever the status, the output of [MarshalJSON] is well-formed
    UTF-8 and holds no byte below [0x20] and none of [<], [>] and [&].
    (Nothing is said of the byte [0x7F] and of the controls U+0080 to
    U+009F, which the encoder writes as they are.) *)
Theorem MarshalJSON_output_clean n :
  wellFormed_loop 0 (fst (MarshalJSON n)) = true
  ∧ forallb isHTMLSafe (fst (MarshalJSON n)) = true.
Proof.
  destruct (encode_facts.appendString_loop_clean
              (S (length (list_byte_of_string n))) (list_byte_of_string n))
    as [Hwf Hsafe]; [lia|].
  cbn [MarshalJSON json.Marshal_string fst]. unfold json.appendString. split.
  - change (wellFormed_loop 0 (x22 :: ?l)) with (wellFormed_loop 0 l).
    by rewrite encode_facts.wellFormed_loop_app.
  - assert (∀ l, forallb isHTMLSafe (x22 :: l ++ [x22]) = forallb isHTMLSafe l) as ->;
      [|done].
    intros l. change (forallb isHTMLSafe (x22 :: l ++ [x22]))
      with (forallb isHTMLSafe (l ++ [x22])).
    rewrite forallb_app. apply andb_true_r.
Qed.

(** ** The errors of [UnmarshalJSON] *)

Module error_facts.
Import json.
Local Open Scope byte_scope.

Ltac inv_auto :=
  unfold step_ok, scanner_inv, set_step, set_top, scan_error in *;
  cbn [fst snd step err endTop] in *;
  intuition (discriminate || congruence || auto).

Lemma scan_error_ok s : scanner_inv s → step_ok (scan_error s).
Proof. inv_auto. Qed.

Lemma keep_ok s op : scanner_inv s → op ≠ scanError → step_ok (s, op).
Proof. inv_auto. Qed.

Lemma set_step_ok s f op :
  scanner_inv s → endTop s = false → f ≠ stateError → op ≠ scanError →
  step_ok (set_step s f, op).
Proof. inv_auto. Qed.

Lemma set_step_inv s f :
  scanner_inv s → endTop s = false → f ≠ stateError → scanner_inv (set_step s f).
Proof. inv_auto. Qed.

Lemma set_top_inv s p : scanner_inv s → scanner_inv (set_top s p).
Proof. inv_auto. Qed.

Lemma pushParseState_ok s p op :
  scanner_inv s → endTop s = false → step s ≠ stateError → op ≠ scanError →
  step_ok (pushParseState s p op).
Proof. intros Hs Ht Hf Hop. unfold pushParseState. case_match; inv_auto. Qed.

Lemma popParseState_ok s op :
  scanner_inv s → endTop s = false → op ≠ scanError → step_ok (popParseState s, op).
Proof. intros Hs Ht Hop. unfold popParseState. case_match; inv_auto. Qed.

Lemma do_stateEndTop_ok s c : scanner_inv s → step_ok (do_stateEndTop s c).
Proof. intros Hs. unfold do_stateEndTop. case_match; inv_auto. Qed.

Ltac step_auto :=
  first [ apply scan_error_ok; assumption
        | apply set_step_ok;
            [try apply set_top_inv; assumption|assumption|discriminate|discriminate]
        | apply keep_ok; [assumption|discriminate]
        | apply popParseState_ok; [assumption|assumption|discriminate]
        | apply pushParseState_ok;
            [apply set_step_inv; [assumption|assumption|discriminate]
            |assumption|discriminate|discriminate] ].

Lemma do_stateEndValue_ok s c :
  scanner_inv s → endTop s = false → step_ok (do_stateEndValue s c).
Proof.
  intros Hs Ht. unfold do_stateEndValue.
  destruct (parseState s) as [|p ps] eqn:Hps.
  { apply do_stateEndTop_ok. inv_auto. }
  destruct (isSpace c); [step_auto|].
  destruct p; destruct c; step_auto.
Qed.

Lemma do_stateBeginValue_ok s c :
  scanner_inv s → endTop s = false → step_ok (do_stateBeginValue s c).
Proof.
  intros Hs Ht. unfold do_stateBeginValue.
  destruct (isSpace c); [step_auto|].
  destruct c; try step_auto;
    match goal with |- step_ok (if ?b then _ else _) => destruct b end; step_auto.
Qed.

Lemma do_stateBeginString_ok s c :
  scanner_inv s → endTop s = false → step_ok (do_stateBeginString s c).
Proof.
  intros Hs Ht. unfold do_stateBeginString.
  destruct (isSpace c); [step_auto|]. destruct c; step_auto.
Qed.

Lemma do_state0_ok s c :
  scanner_inv s → endTop s = false → step_ok (do_state0 s c).
Proof.
  intros Hs Ht. unfold do_state0.
  destruct c; first [step_auto | by apply do_stateEndValue_ok].
Qed.

Lemma do_stateESign_ok s c :
  scanner_inv s → endTop s = false → step_ok (do_stateESign s c).
Proof. intros Hs Ht. unfold do_stateESign. destruct (isDigit c); step_auto. Qed.

(** One step of the scanner keeps the invariant. *)
Lemma scan_step_ok s c : scanner_inv s → step_ok (scan_step s c).
Proof.
  intros Hs. unfold scan_step.
  destruct (step s) eqn:Hf;
    try (apply do_stateEndTop_ok; assumption);
    try (inv_auto; fail);
    (assert (endTop s = false) as Ht
       by (destruct (endTop s) eqn:Het; [|done];
           destruct Hs as (_ & _ & Hs3); destruct (Hs3 Het); congruence));
    unfold do_stateBeginValueOrEmpty, do_stateBeginStringOrEmpty, do_stateInString,
      do_stateInStringEsc, do_hex, do_stateNeg, do_state1, do_stateDot, do_stateDot0,
      do_stateE, do_stateE0, do_letter;
    repeat match goal with |- step_ok (if ?b then _ else _) => destruct b end;
    try solve [ step_auto
              | by apply do_stateBeginValue_ok | by apply do_stateBeginString_ok
              | by apply do_stateEndValue_ok
              | by apply do_state0_ok | by apply do_stateESign_ok ];
    destruct c;
    repeat match goal with |- step_ok (if ?b then _ else _) => destruct b end;
    solve [ step_auto
          | by apply do_stateBeginValue_ok | by apply do_stateBeginString_ok
          | by apply do_stateEndValue_ok
          | by apply do_state0_ok | by apply do_stateESign_ok
          | apply do_stateEndValue_ok; [by apply set_top_inv|assumption] ].
Qed.

(** Validation fails with a syntax error only. *)
Lemma eof_ok s : scanner_inv s → step_ok (eof s).
Proof.
  intros Hs. unfold eof.
  destruct (err s) eqn:He; [inv_auto|].
  destruct (endTop s); [inv_auto|].
  pose proof (scan_step_ok s " " Hs) as Hok.
  destruct (scan_step s " ") as [s' op]. cbn [fst].
  destruct (endTop s'); [inv_auto|].
  destruct (err s') eqn:He'; inv_auto.
Qed.

Lemma checkValid_from_syntax s data :
  scanner_inv s →
  checkValid_from s data = None ∨ checkValid_from s data = Some SyntaxError.
Proof.
  revert s. induction data as [|c data IH]; intros s Hs; cbn [checkValid_from].
  - pose proof (eof_ok s Hs) as Hok. destruct (eof s) as [s' op].
    destruct op; auto; right; inv_auto.
  - pose proof (scan_step_ok s c Hs) as Hok. destruct (scan_step s c) as [s' op].
    destruct op; try (apply IH; inv_auto). right. inv_auto.
Qed.

Lemma checkValid_syntax data :
  checkValid data = None ∨ checkValid data = Some SyntaxError.
Proof. apply checkValid_from_syntax. unfold reset. inv_auto. Qed.

(** A value of another kind is skipped and reported by its kind. *)
Lemma unmarshal_kind c r kind :
  value_kind c = Some kind →
  unmarshal (c :: r) = Untouched (Some (UnmarshalTypeError kind)).
Proof. destruct c; try discriminate; intros [= <-]; reflexivity. Qed.

Lemma value_kind_not_space c kind : value_kind c = Some kind → isSpace c = false.
Proof. by destruct c. Qed.
End error_facts.

(** ** Whitespace after the input *)

Module space_facts.
Import json.
Local Open Scope byte_scope.

(** A whitespace byte at the end of the input changes nothing: where the
    scanner refuses it, the input without it is refused at its end, and
    where it is accepted, the end of input is judged as before. *)
Lemma space_step s c :
  isSpace c = true → scanner_inv s →
  match scan_step s c with
  | (s', scanError) => err s' = checkValid_from s []
  | (s', _) => checkValid_from s' [] = checkValid_from s []
  end.
Proof.
  intros Hc (Hi1 & Hi2 & Ht).
  destruct s as [f et ps er]. cbn [step err endTop] in *.
  destruct c; try discriminate; clear Hc;
    destruct f, et, ps as [|[] ps]; destruct Hi2 as [->| ->];
    try (specialize (Hi1 eq_refl); discriminate Hi1);
    try (by destruct (Ht eq_refl));
    reflexivity.
Qed.

Lemma checkValid_from_spaces_end s ws :
  JSONSpaces ws → scanner_inv s → checkValid_from s ws = checkValid_from s [].
Proof.
  intros Hws. revert s. induction Hws as [|c ws Hc _ IH]; intros s Hs; [done|].
  pose proof (space_step s c Hc Hs) as Hstep.
  pose proof (error_facts.scan_step_ok s c Hs) as [Hs' _].
  change (checkValid_from s (c :: ws)) with
    (let '(s', op) := scan_step s c in
     match op with scanError => err s' | _ => checkValid_from s' ws end).
  destruct (scan_step s c) as [s' op]. cbn [fst] in Hs'.
  destruct op; try (by rewrite IH); done.
Qed.

Lemma checkValid_from_app_spaces s data ws :
  JSONSpaces ws → scanner_inv s →
  checkValid_from s (data ++ ws) = checkValid_from s data.
Proof.
  intros Hws. revert s. induction data as [|c data IH]; intros s Hs.
  - by apply checkValid_from_spaces_end.
  - pose proof (error_facts.scan_step_ok s c Hs) as [Hs' _].
    cbn [app checkValid_from]. destruct (scan_step s c) as [s' op]. cbn [fst] in Hs'.
    destruct op; try (by apply IH); done.
Qed.

Lemma checkValid_app_spaces data ws :
  JSONSpaces ws → checkValid (data ++ ws) = checkValid data.
Proof.
  intros Hws. apply checkValid_from_app_spaces; [done|].
  unfold reset, scanner_inv. cbn. intuition discriminate.
Qed.
End space_facts.

(** ** Errors and whitespace *)

Module status_facts.
Import json.

Lemma JSONSpaces_app ws1 ws2 : JSONSpaces ws1 → JSONSpaces ws2 → JSONSpaces (ws1 ++ ws2).
Proof. apply Forall_app_2. Qed.

Lemma value_kind_none c r :
  isSpace c = false → c ≠ x22 → c ≠ "n"%byte → value_kind c = None →
  checkValid (c :: r) = Some SyntaxError.
Proof.
  intros Hsp Hq Hn Hk.
  destruct c; try discriminate; try congruence; reflexivity.
Qed.

(** A valid JSON text is a string, [null], or starts a value of another
    kind. *)
Lemma valid_cases data :
  checkValid data = None →
  JSONString data ∨ JSONNull data
  ∨ ∃ ws c r kind, JSONSpaces ws ∧ data = ws ++ c :: r ∧ value_kind c = Some kind.
Proof.
  intros Hv.
  destruct (scan_facts.split_spaces data) as (ws & d & Hws & -> & Hd).
  rewrite scan_facts.checkValid_spaces in Hv by done.
  destruct d as [|c r]; [discriminate|].
  destruct (byte_eq_dec c x22) as [->|Hq].
  { apply scan_facts.checkValid_inString in Hv as (body & ws2 & Hbody & Hws2 & ->).
    left. exists body. by exists ws, ws2. }
  destruct (byte_eq_dec c "n"%byte) as [->|Hn].
  { apply scan_facts.checkValid_stateN in Hv as (ws2 & Hws2 & ->).
    right; left. by exists ws, ws2. }
  destruct (value_kind c) as [kind|] eqn:Hk.
  - right; right. by exists ws, c, r, kind.
  - rewrite value_kind_none in Hv by done. discriminate.
Qed.

Lemma Unmarshal_string_kind ws c r kind v :
  JSONSpaces ws → value_kind c = Some kind → checkValid (ws ++ c :: r) = None →
  Unmarshal_string (ws ++ c :: r) v = Return (v, Some (UnmarshalTypeError kind)).
Proof.
  intros Hws Hk Hv. unfold Unmarshal_string. rewrite Hv.
  by rewrite scan_facts.unmarshal_spaces, (error_facts.unmarshal_kind c r kind).
Qed.

Lemma Unmarshal_string_syntax data v :
  checkValid data ≠ None → Unmarshal_string data v = Return (v, Some SyntaxError).
Proof.
  intros Hv. unfold Unmarshal_string.
  destruct (error_facts.checkValid_syntax data) as [Hc|Hc]; [done|by rewrite Hc].
Qed.

Lemma Unmarshal_string_app_spaces data ws v :
  JSONSpaces ws → Unmarshal_string (data ++ ws) v = Unmarshal_string data v.
Proof.
  intros Hws.
  destruct (checkValid data) as [e|] eqn:Hv.
  { unfold Unmarshal_string. by rewrite space_facts.checkValid_app_spaces, Hv. }
  pose proof Hv as Hv'. rewrite <- (space_facts.checkValid_app_spaces data ws Hws) in Hv'.
  destruct (valid_cases data Hv)
    as [[body Hs]|[Hn|(ws1 & c & r & kind & Hws1 & -> & Hk)]].
  - assert (JSONStringOf body (data ++ ws)) as Hs'.
    { destruct Hs as (ws1 & ws2 & Hws1 & Hws2 & Hbody & ->).
      exists ws1, (ws2 ++ ws). split_and!; [done|by apply JSONSpaces_app|done|].
      by repeat (rewrite <- app_assoc || rewrite <- app_comm_cons). }
    destruct (decode_facts.Unmarshal_string_string body data v Hs) as (t & Ht & ->).
    destruct (decode_facts.Unmarshal_string_string body _ v Hs') as (t' & Ht' & ->).
    congruence.
  - assert (JSONNull (data ++ ws)) as Hn'.
    { destruct Hn as (ws1 & ws2 & Hws1 & Hws2 & ->).
      exists ws1, (ws2 ++ ws). split_and!; [done|by apply JSONSpaces_app|].
      by repeat (rewrite <- app_assoc || rewrite <- app_comm_cons). }
    by rewrite !decode_facts.Unmarshal_string_null.
  - rewrite <- app_assoc in Hv' |- *. cbn [app] in Hv' |- *.
    by rewrite !(Unmarshal_string_kind _ _ _ kind).
Qed.

Lemma Unmarshal_string_spaces_app ws data v :
  JSONSpaces ws → Unmarshal_string (ws ++ data) v = Unmarshal_string data v.
Proof.
  intros Hws. unfold Unmarshal_string.
  by rewrite scan_facts.checkValid_spaces, scan_facts.unmarshal_spaces.
Qed.

End status_facts.

(** X13. [UnmarshalJSON] returns an error in two cases only, and leaves the
    status alone in both: the input is no valid JSON text and the error is
    a syntax error, or the input is a valid JSON text whose first byte
    after the whitespace starts an array, an object, a boolean or a
    number, and the error is an [UnmarshalTypeError] that names that
    kind. *)
Theorem UnmarshalJSON_error_kinds (n n' : OutboxEventStatus) data e :
  UnmarshalJSON n data = Return (n', Some e)
  ↔ n' = n
    ∧ ((json.checkValid data ≠ None ∧ e = SyntaxError)
       ∨ (json.checkValid data = None
          ∧ ∃ ws c r kind, JSONSpaces ws ∧ data = ws ++ c :: r
                           ∧ value_kind c = Some kind
                           ∧ e = UnmarshalTypeError kind)).
Proof.
  split.
  - intros Hu. destruct (json.checkValid data) as [e0|] eqn:Hv.
    + unfold UnmarshalJSON in Hu.
      rewrite status_facts.Unmarshal_string_syntax in Hu by congruence.
      injection Hu as <- <-. split; [done|]. by left.
    + destruct (status_facts.valid_cases data Hv)
        as [[body Hs]|[Hn|(ws & c & r & kind & Hws & -> & Hk)]].
      * destruct (UnmarshalJSON_string n body data Hs) as (t & _ & Ht). congruence.
      * rewrite (UnmarshalJSON_null n data Hn) in Hu. congruence.
      * unfold UnmarshalJSON in Hu.
        rewrite (status_facts.Unmarshal_string_kind _ _ _ kind) in Hu by done.
        injection Hu as <- <-. split; [done|]. right. split; [done|].
        by exists ws, c, r, kind.
  - intros [-> [[Hv ->]|[Hv (ws & c & r & kind & Hws & -> & Hk & ->)]]];
      unfold UnmarshalJSON.
    + by rewrite status_facts.Unmarshal_string_syntax.
    + by rewrite (status_facts.Unmarshal_string_kind _ _ _ kind).
Qed.

(** X14. With spaces, tabs, carriage returns and line feeds added before
    and after the input, [UnmarshalJSON] succeeds or fails as without
    them: it stores the same status, or leaves the status alone and
    returns an error of the same kind, a syntax error or a type error for
    the same kind of JSON value. (An [error] is the kind of a Go error:
    message and offset, which whitespace can change, are not part of
    it.) *)
Theorem UnmarshalJSON_surrounding_spaces (n : OutboxEventStatus) ws1 ws2 data :
  JSONSpaces ws1 → JSONSpaces ws2 →
  UnmarshalJSON n (ws1 ++ data ++ ws2) = UnmarshalJSON n data.
Proof.
  intros Hws1 Hws2. unfold UnmarshalJSON.
  by rewrite status_facts.Unmarshal_string_spaces_app,
    status_facts.Unmarshal_string_app_spaces.
Qed.

(** ** What [UnmarshalJSON] stores *)

Module stored_facts.
Import json.
Local Open Scope byte_scope.
Local Open Scope Z_scope.

Ltac divlia := Z.div_mod_to_equations; lia.

Lemma Z_of_byte_of_Z z : 0 ≤ z < 256 → Z_of_byte (byte_of_Z z) = z.
Proof.
  intros Hz. unfold Z_of_byte, byte_of_Z.
  change 0xFF with (Z.ones 8). rewrite Z.land_ones by lia.
  rewrite Z.mod_small by lia.
  destruct (Byte.of_N (Z.to_N z)) as [b|] eqn:Hb.
  - apply Byte.to_of_N in Hb. lia.
  - apply Byte.of_N_None_iff in Hb. lia.
Qed.

(** The byte [k * 2 ^ n + y] written as [k * 2 ^ n | y]. *)
Lemma enc_byte k n y :
  0 ≤ n → 0 ≤ y < 2 ^ n → 0 ≤ k → k * 2 ^ n + y < 256 →
  Z_of_byte (byte_of_Z (Z.lor (k * 2 ^ n) y)) = k * 2 ^ n + y.
Proof.
  intros Hn Hy Hk Hlt. rewrite utf8_facts.lor_mul_add by done.
  apply Z_of_byte_of_Z. nia.
Qed.

Lemma enc_cont x : 0 ≤ x →
  Z_of_byte (byte_of_Z (Z.lor 0x80 (Z.land x 0x3F))) = 0x80 + x mod 64.
Proof.
  intros Hx. change 0x3F with (Z.ones 6). rewrite Z.land_ones by lia.
  change (2 ^ 6) with 64.
  pose proof (Z.mod_pos_bound x 64 ltac:(lia)).
  change 0x80 with (2 * 2 ^ 6). rewrite enc_byte; lia.
Qed.

(** [EncodeRune] writes one ASCII byte or one well-formed sequence,
    whatever the rune. *)
Lemma EncodeRune_wf r :
  (∃ b, utf8.EncodeRune r = [b] ∧ (Z_of_byte b <? 0x80) = true)
  ∨ ∃ c, utf8_seq (utf8.EncodeRune r) c.
Proof.
  assert (∃ c, utf8_seq (utf8.encode3 utf8.RuneError) c) as Herr.
  { eexists. change (utf8.encode3 utf8.RuneError) with [xef; xbf; xbd].
    apply utf8_seq3; unfold is_cont; vm_compute; intuition discriminate. }
  unfold utf8.EncodeRune, utf8.MaxRune.
  destruct ((0 <=? r) && (r <=? 0x7F)) eqn:H1.
  { left. eexists. split; [done|]. apply Z.ltb_lt. rewrite Z_of_byte_of_Z; lia. }
  destruct ((0 <=? r) && (r <=? 0x7FF)) eqn:H2.
  { right. eexists.
    assert (0x80 ≤ r ≤ 0x7FF) as Hr by lia.
    rewrite Z.shiftr_div_pow2 by lia. change (2 ^ 6) with 64.
    assert (Z_of_byte (byte_of_Z (Z.lor 0xC0 (r / 64))) = 0xC0 + r / 64) as E0.
    { change 0xC0 with (3 * 2 ^ 6).
      rewrite enc_byte; change (2 ^ 6) with 64; try lia; divlia. }
    apply utf8_seq2; unfold is_cont; rewrite ?E0, ?enc_cont by lia; divlia. }
  destruct (_ || _) eqn:H3; [by right|].
  assert (0x800 ≤ r ≤ 0x10FFFF ∧ ¬ (0xD800 ≤ r ≤ 0xDFFF)) as [Hr Hs] by lia.
  destruct (r <=? 0xFFFF) eqn:H4.
  { right. eexists. unfold utf8.encode3.
    assert (r ≤ 0xFFFF) as Hr4 by lia.
    rewrite !Z.shiftr_div_pow2 by lia. change (2 ^ 12) with 4096. change (2 ^ 6) with 64.
    assert (Z_of_byte (byte_of_Z (Z.lor 0xE0 (r / 4096))) = 0xE0 + r / 4096) as E0.
    { change 0xE0 with (14 * 2 ^ 4).
      rewrite enc_byte; change (2 ^ 4) with 16; try lia; divlia. }
    assert (0 ≤ r / 64) as Hd by divlia.
    apply utf8_seq3; unfold is_cont; rewrite ?E0, ?enc_cont by lia; try divlia;
      intros Hp; divlia. }
  right. eexists.
  assert (0x10000 ≤ r) as Hr4 by lia.
  rewrite !Z.shiftr_div_pow2 by lia.
  change (2 ^ 18) with 262144. change (2 ^ 12) with 4096. change (2 ^ 6) with 64.
  assert (Z_of_byte (byte_of_Z (Z.lor 0xF0 (r / 262144))) = 0xF0 + r / 262144) as E0.
  { change 0xF0 with (30 * 2 ^ 3).
    rewrite enc_byte; change (2 ^ 3) with 8; try lia; divlia. }
  assert (0 ≤ r / 64) as Hd by divlia.
  assert (0 ≤ r / 4096) as Hd' by divlia.
  apply utf8_seq4; unfold is_cont; rewrite ?E0, ?enc_cont by lia; try divlia;
    intros Hp; divlia.
Qed.

Lemma wellFormed_loop_seq s c l :
  utf8_seq s c → wellFormed_loop 0 (s ++ l) = wellFormed_loop 0 l.
Proof.
  intros Hs.
  destruct (roundtrip_facts.utf8_seq_cons _ _ Hs) as (b & s' & -> & _ & _).
  cbn [app wellFormed_loop].
  change (b :: s' ++ l) with ((b :: s') ++ l).
  rewrite (utf8_facts.DecodeRune_seq _ _ _ Hs).
  rewrite (roundtrip_facts.utf8_seq_not_error_width _ _ Hs). cbn [length Nat.sub].
  by rewrite Nat.sub_0_r, roundtrip_facts.wellFormed_loop_skip, drop_app_length.
Qed.

Lemma wellFormed_loop_EncodeRune r t :
  wellFormed_loop 0 (utf8.EncodeRune r ++ t) = wellFormed_loop 0 t.
Proof.
  destruct (EncodeRune_wf r) as [(b & -> & Hb)|[c Hc]].
  - by apply roundtrip_facts.wellFormed_loop_ascii.
  - by apply (wellFormed_loop_seq _ c).
Qed.

Lemma unquote_loop_escape_ascii e s :
  isSimpleEscape e = true →
  ∃ b, (Z_of_byte b <? 0x80) = true
       ∧ unquote_loop 0 ("\"%byte :: e :: s) = cons b <$> unquote_loop 0 s.
Proof.
  intros He.
  destruct e; try discriminate; (eexists; split; [|reflexivity]; reflexivity).
Qed.

(** [unquoteBytes] writes well-formed UTF-8 only. *)
Lemma unquote_loop_wf n :
  ∀ s t, (length s < n)%nat → JSONChars s → unquote_loop 0 s = Some t →
         wellFormed_loop 0 t = true.
Proof.
  induction n as [|n IH]; intros s t Hlen Hs Ht; [lia|].
  inversion Hs as [|c s' Hc Hs'|e s' He Hs'|h1 h2 h3 h4 s' H1 H2 H3 H4 Hs']; subst.
  - by injection Ht as <-.
  - rewrite decode_facts.unquote_loop_unescaped in Ht by done.
    destruct (_ <? _) eqn:Hasc.
    + apply fmap_Some in Ht as (t' & Ht' & ->).
      rewrite roundtrip_facts.wellFormed_loop_ascii by done.
      apply (IH s'); [simpl in Hlen; lia|done|done].
    + apply fmap_Some in Ht as (t' & Ht' & ->).
      rewrite wellFormed_loop_EncodeRune.
      rewrite decode_facts.unquote_loop_skip in Ht'.
      destruct (decode_facts.DecodeRune_size c s') as (pre & post & Heq & Hpre & Hhi).
      rewrite <- Hpre in Ht'. subst s'. rewrite drop_app_length in Ht'.
      apply (IH post); [simpl in Hlen; rewrite length_app in Hlen; lia| |done].
      by apply (decode_facts.JSONChars_drop_nonASCII pre).
  - destruct (unquote_loop_escape_ascii e s' He) as (b & Hb & Heq).
    rewrite Heq in Ht. apply fmap_Some in Ht as (t' & Ht' & ->).
    rewrite roundtrip_facts.wellFormed_loop_ascii by done.
    apply (IH s'); [simpl in Hlen; lia|done|done].
  - rewrite decode_facts.unquote_loop_u in Ht. cbv zeta in Ht.
    destruct (_ <? 0) eqn:Hneg; [done|].
    destruct (utf16.IsSurrogate _).
    2:{ apply fmap_Some in Ht as (t' & Ht' & ->).
        rewrite wellFormed_loop_EncodeRune.
        apply (IH s'); [simpl in Hlen; lia|done|done]. }
    destruct (_ =? 0xFFFD) eqn:Hdec; cbn [negb] in Ht;
      apply fmap_Some in Ht as (t' & Ht' & ->);
      rewrite wellFormed_loop_EncodeRune.
    { apply (IH s'); [simpl in Hlen; lia|done|done]. }
    apply Z.eqb_neq, decode_facts.utf16_DecodeRune_pair, decode_facts.getu4_nonneg_inv
      in Hdec as (g1 & g2 & g3 & g4 & s'' & Heq).
    subst s'. rewrite decode_facts.unquote_loop_skip in Ht'.
    cbn [skipn] in Ht'. rewrite drop_0 in Ht'.
    apply (IH s''); [simpl in Hlen; lia| |done].
    by apply decode_facts.JSONChars_u_inv in Hs'.
Qed.

End stored_facts.

(** X15. Every status [UnmarshalJSON] stores is well-formed UTF-8 (the
    decoder replaces what is not by U+FFFD), so a status that came out of
    [UnmarshalJSON] goes through [MarshalJSON] and [UnmarshalJSON] again
    unchanged. *)
Theorem UnmarshalJSON_stores_wellFormed (n n' : OutboxEventStatus) data :
  UnmarshalJSON n data = Return (n', None) →
  wellFormedUTF8 n' = true
  ∧ ∀ m, UnmarshalJSON m (fst (MarshalJSON n')) = Return (n', None).
Proof.
  intros Hu.
  assert (wellFormedUTF8 n' = true) as Hwf.
  { unfold UnmarshalJSON in Hu.
    destruct (decode_facts.Unmarshal_string_cases data EmptyString)
      as [(body & t & Hstr & Ht & Hs)|[[_ Hs]|[e Hs]]];
      rewrite Hs in Hu; [| |discriminate]; injection Hu as <-; [|done].
    unfold wellFormedUTF8. rewrite list_byte_of_string_of_list_byte.
    destruct Hstr as (_ & _ & _ & _ & Hbody & _).
    by apply (stored_facts.unquote_loop_wf (S (length body)) body t); [lia|..]. }
  split; [done|]. intros m. rewrite UnmarshalJSON_MarshalJSON.
  unfold coerceUTF8. unfold wellFormedUTF8 in Hwf.
  apply roundtrip_facts.coerce_loop_fixed in Hwf.
  by rewrite Hwf, string_of_list_byte_of_string.
Qed.

(** X16. On statuses that are well-formed UTF-8, [MarshalJSON] is
    injective: two of them with the same JSON text are the same status. *)
Theorem MarshalJSON_injective (s1 s2 : OutboxEventStatus) :
  wellFormedUTF8 s1 = true → wellFormedUTF8 s2 = true →
  fst (MarshalJSON s1) = fst (MarshalJSON s2) → s1 = s2.
Proof.
  intros H1 H2 Heq.
  pose proof (UnmarshalJSON_MarshalJSON EmptyString s1) as U1.
  pose proof (UnmarshalJSON_MarshalJSON EmptyString s2) as U2.
  rewrite Heq, U2 in U1. injection U1 as U1.
  unfold coerceUTF8, wellFormedUTF8 in *.
  apply roundtrip_facts.coerce_loop_fixed in H1, H2.
  rewrite H1, H2, !string_of_list_byte_of_string in U1. done.
Qed.

(** ** The further properties at the fixtures of the tests *)

Lemma RegisterEventChannel_nil_channel_witness :
  snd (RegisterEventChannel UserUpdated None test_manager) = None
  ∧ snd (GetChannel UserUpdated
           (fst (RegisterEventChannel UserUpdated None test_manager))) = (None, None)
  ∧ ∀ c, snd (RegisterEventChannel UserUpdated c
                (fst (RegisterEventChannel UserUpdated None test_manager))) =
           Some (errors_New "event channel already registered for this event type").
Proof.
  apply (RegisterEventChannel_nil_channel UserUpdated test_manager).
  vm_compute; reflexivity.
Defined.

Lemma RegisterEventChannel_commute_witness :
  fst (RegisterEventChannel UserUpdated (Some 2%nat)
         (fst (RegisterEventChannel UserCreated (Some 1%nat) NewOutboxEventManager)))
  = fst (RegisterEventChannel UserCreated (Some 1%nat)
           (fst (RegisterEventChannel UserUpdated (Some 2%nat) NewOutboxEventManager))).
Proof.
  apply (RegisterEventChannel_commute UserCreated UserUpdated (Some 1%nat) (Some 2%nat)
           NewOutboxEventManager).
  discriminate.
Defined.

Lemma register_all_errors_witness :
  snd (register_all [(UserCreated, Some 1%nat); (UserCreated, Some 2%nat)]
         NewOutboxEventManager) !! 1%nat = Some None
  ↔ eventChannels (NewOutboxEventManager (C := nat)) !! UserCreated = None
    ∧ UserCreated ∉ (take 1 [(UserCreated, Some 1%nat); (UserCreated, Some 2%nat)]).*1.
Proof.
  apply (register_all_errors [(UserCreated, Some 1%nat); (UserCreated, Some 2%nat)]
           NewOutboxEventManager 1 UserCreated (Some 2%nat)).
  reflexivity.
Defined.

Lemma register_all_distinct_witness :
  size (eventChannels
          (fst (register_all [(UserCreated, Some 1%nat); (UserUpdated, Some 2%nat)]
                  NewOutboxEventManager))) = 2%nat.
Proof.
  apply (register_all_distinct [(UserCreated, Some 1%nat); (UserUpdated, Some 2%nat)]).
  apply NoDup_cons. split; [|apply NoDup_singleton].
  rewrite elem_of_cons, elem_of_nil. intros [?|[]]; discriminate.
Defined.

Lemma create_events_timestamps_witness :
  ∃ e1 e2, create_events test_requests test_world !! 0%nat = Some e1
    ∧ create_events test_requests test_world !! 1%nat = Some e2
    ∧ (CreatedAt e1 ≤ CreatedAt e2)%Z.
Proof.
  eexists _, _. split; [reflexivity|]. split; [reflexivity|].
  apply (proj2 (create_events_timestamps test_requests test_world)) with 0%nat 1%nat.
  - intros i j Hij. simpl. lia.
  - lia.
  - reflexivity.
  - reflexivity.
Defined.

Lemma route_one_witness :
  ∃ e, test_routes !! 0%nat = Some (UserCreated, e)
    ∧ route UserCreated e test_manager test_store =
        Return (<[1%nat := {| registered := false; events := [e] |}]> test_store, None)
    ∧ route UserUpdated e test_manager test_store = Panics.
Proof.
  eexists. split; [reflexivity|]. split.
  - apply (proj1 (route_one UserCreated _ test_manager test_store) 1%nat
             {| registered := false; events := [] |});
      vm_compute; reflexivity.
  - apply (proj1 (proj2 (route_one UserUpdated _ test_manager test_store))).
    vm_compute; reflexivity.
Defined.

Lemma route_all_isolation_witness :
  ∃ h', route_all test_routes test_manager2 test_store = Return h'
    ∧ dom h' = dom test_store
    ∧ ∀ p ch, test_store !! p = Some ch →
        h' !! p = Some {| registered := registered ch;
                          events := events ch ++
                            (filter (λ ke, eventChannels test_manager2 !! ke.1
                                           = Some (Some p)) test_routes).*2 |}.
Proof.
  apply (route_all_isolation test_routes test_manager2 test_store).
  intros k e Hin. unfold test_routes in Hin. cbn in Hin.
  rewrite !elem_of_cons, elem_of_nil in Hin.
  destruct Hin as [[= -> ->]|[[= -> ->]|[]]].
  - exists 1%nat. split; [vm_compute; reflexivity|]. eexists. vm_compute; reflexivity.
  - exists 2%nat. split; [vm_compute; reflexivity|]. eexists. vm_compute; reflexivity.
Defined.

Lemma UnmarshalJSON_surrounding_spaces_witness :
  UnmarshalJSON OutboxEventStatusPending
    ([" "; x09]%byte ++ quoted "closed" ++ [x0d; x0a]%byte)
  = UnmarshalJSON OutboxEventStatusPending (quoted "closed").
Proof.
  apply (UnmarshalJSON_surrounding_spaces OutboxEventStatusPending
           [" "; x09]%byte [x0d; x0a]%byte (quoted "closed"));
    repeat constructor.
Defined.

Lemma UnmarshalJSON_stores_wellFormed_witness :
  wellFormedUTF8 "closed" = true
  ∧ ∀ m, UnmarshalJSON m (fst (MarshalJSON "closed")) = Return ("closed", None).
Proof.
  apply (UnmarshalJSON_stores_wellFormed OutboxEventStatusPending "closed"
           (quoted "closed")).
  vm_compute; reflexivity.
Defined.

Lemma MarshalJSON_injective_witness :
  OutboxEventStatusClosed = "closed".
Proof.
  apply (MarshalJSON_injective OutboxEventStatusClosed "closed"); reflexivity.
Defined.
